(** * Monitoramento de focos de incêndio: the map component and the INPE proxy

    A shallow embedding of [src/app/api/inpe-kml/route.ts] (the proxy
    endpoint) and of the [MapComponent] of [src/app/page.tsx] (hotspot
    pipeline, overlay swap, boundary styles, refresh timer), followed by the
    properties of the specification stated over it.

    Strings are [string]s holding the UTF-8 text.  Every pattern the code
    searches for is made of whole characters and the only character class it
    uses excludes the ASCII character [<], so matching bytes and matching
    UTF-16 code units find the same occurrences. *)

From Stdlib Require Import String Ascii List NArith QArith Lia.
From stdpp Require Import base gmap list strings.

#[local] Set Warnings "-clear-no-such-hyp".

(** ** JavaScript primitives the code relies on *)
Module JS.

(** *** Exceptions: a value or a thrown error *)
Inductive Exc (A : Type) : Type :=
| Return (a : A)
| Throw (e : string).
Arguments Return {A} a.
Arguments Throw {A} e.

Definition bind {A B} (m : Exc A) (k : A → Exc B) : Exc B :=
  match m with
  | Return a => k a
  | Throw e => Throw e
  end.

(** [try { m } catch (e) { h e }] *)
Definition try_catch {A} (m : Exc A) (h : string → Exc A) : Exc A :=
  match m with
  | Return a => Return a
  | Throw e => h e
  end.

(** [Promise.all]: the results in order, or the first rejection. *)
Fixpoint Promise_all {A} (ps : list (Exc A)) : Exc (list A) :=
  match ps with
  | [] => Return []
  | p :: ps' =>
      bind p (λ a, bind (Promise_all ps') (λ r, Return (a :: r)))
  end.


(** [v || d] *)
Definition or_else (v : option string) (d : string) : string :=
  match v with
  | Some (String c s) => String c s
  | _ => d
  end.

(** *** String search *)

(** The rest of [s] after the prefix [p], when [s] starts with [p]. *)
Fixpoint strip_prefix (p s : string) : option string :=
  match p with
  | EmptyString => Some s
  | String a p' =>
      match s with
      | EmptyString => None
      | String b s' => if Ascii.eqb a b then strip_prefix p' s' else None
      end
  end.

(** [s.startsWith(p)] *)
Definition startsWith (s p : string) : bool :=
  match strip_prefix p s with
  | Some _ => true
  | None => false
  end.

(** [s.includes(sub)]: [sub] starts at some position of [s]. *)
Fixpoint includes (s sub : string) : bool :=
  if startsWith s sub then true
  else
    match s with
    | EmptyString => false
    | String _ s' => includes s' sub
    end.

(** *** The regular expressions of the annotator

    All four have the shape [/<td>LABEL<\/td><td>([^<]+)<\/td>/] for a
    literal [LABEL]. *)

(** [[^<]*], greedy: the longest run without [<], and what follows it. *)
Fixpoint span_cell (s : string) : string * string :=
  match s with
  | EmptyString => (EmptyString, EmptyString)
  | String c s' =>
      if Ascii.eqb c "<" then (EmptyString, s)
      else let (v, r) := span_cell s' in (String c v, r)
  end.

Definition cell_open (label : string) : string :=
  "<td>" +:+ label +:+ "</td><td>".
Definition cell_close : string := "</td>".

(** A match that starts at the first character of [s]: the capture group.
    A character of the run is never [<], so giving back characters of the
    greedy run cannot make the closing tag match: only the longest run is
    to be tried. *)
Definition match_here (label s : string) : option string :=
  match strip_prefix (cell_open label) s with
  | Some rest =>
      let (v, r) := span_cell rest in
      match v with
      | EmptyString => None
      | String _ _ => if startsWith r cell_close then Some v else None
      end
  | None => None
  end.

(** [s.match(re)?.[1]] for a pattern without the [g] flag: the capture of
    the match at the leftmost position that has one. *)
Fixpoint regex_match (label s : string) : option string :=
  match match_here label s with
  | Some v => Some v
  | None =>
      match s with
      | EmptyString => None
      | String _ s' => regex_match label s'
      end
  end.

(** *** What [fetch] resolves to: the parts of a [Response] the code reads.
    [text] is the outcome of [await response.text()]. *)
Record Response := {
  status : nat;
  statusText : string;
  content_type : option string;     (* headers.get('content-type') *)
  text : Exc string
}.

(** [response.ok]: the status is in the range 200-299. *)
Definition ok (r : Response) : bool :=
  (200 <=? status r) && (status r <=? 299).

End JS.

Notation "'let*' x ':=' m 'in' k" := (JS.bind m (λ x, k))
  (at level 10, x name, m at level 100, k at level 200).

(** ** GeoJSON, as the code reads it *)
Module GeoJSON.

(** A geometry: its [type] and, for a point, [coordinates] as
    longitude, latitude and an optional altitude. *)
Record Geometry := {
  gtype : string;
  coordinates : list Q
}.

(** The properties the code reads; [None] is a missing key.  The code
    takes each of them to be a string: it calls [desc.match] on the
    description and [styleUrl.includes] on the style reference.  A
    converter that stores another kind of value there (an object for a
    description with markup, say) makes such a call throw; collections of
    that kind are not values of this type, and nothing below speaks of
    them. *)
Record Properties := {
  name : option string;
  description : option string;
  styleUrl : option string
}.

(** [geometry] and [properties] may each be [null]. *)
Record Feature := {
  geometry : option Geometry;
  properties : option Properties
}.

(** A feature collection; its [type] is the constant
    ['FeatureCollection']. *)
Record FeatureCollection := {
  features : list Feature
}.

End GeoJSON.

(** ** The libraries behind the hotspot pipeline

    [xmldom]'s parser, [@tmcw/togeojson]'s converter and the browser's
    [encodeURIComponent] are not part of the repository: the pipeline is
    defined over any implementation of them.  Parsing and conversion may
    throw. *)
Class KmlLibraries := {
  Document : Type;
  parseFromString : string → JS.Exc Document;
  (** [textContent] of the elements [getElementsByTagName("parsererror")] *)
  parsererrors : Document → list string;
  kml : Document → JS.Exc GeoJSON.FeatureCollection;
  encodeURIComponent : string → string
}.

(** ** Leaflet: layers, the map and the layers control *)
Module Leaflet.

Record LatLng := { lat : Q; lng : Q }.

Record Icon := {
  iconUrl : string;
  iconSize : nat * nat;
  iconAnchor : nat * nat;
  popupAnchor : Z * Z
}.

Record Marker := {
  latlng : LatLng;
  icon : Icon;
  popup : option string      (* the content given to [bindPopup], if any *)
}.

(** Leaflet tells layers apart by their stamp ([L.Util.stamp]), a number
    no two objects share. *)
Inductive Layer :=
| TileLayer (url : string)
| GeoJSON (markers : list Marker)
| LayerGroup (layers : list nat).

(** An entry of the control's [_layers] array. *)
Record ControlEntry := {
  layer : nat;
  name : string;
  overlay : bool
}.

(** [coordsToLatLng]: [new LatLng(coords[1], coords[0])], which throws on
    a missing coordinate. *)
Definition coordsToLatLng (coords : list Q) : JS.Exc LatLng :=
  match coords with
  | x :: y :: _ => JS.Return {| lat := y; lng := x |}
  | _ => JS.Throw "Invalid LatLng object"
  end.

(** [map.addLayer(layer)]: nothing when the layer is on the map already;
    a group brings its member layers with it ([LayerGroup.onAdd]). *)
Definition addLayer (objects : gmap nat Layer) (id : nat)
    (on_map : gset nat) : gset nat :=
  if bool_decide (id ∈ on_map) then on_map
  else
    match objects !! id with
    | Some (LayerGroup ls) => list_to_set ls ∪ ({[id]} ∪ on_map)
    | _ => {[id]} ∪ on_map
    end.

(** [map.removeLayer(layer)]: nothing when the layer is not on the map; a
    group takes its member layers with it ([LayerGroup.onRemove]). *)
Definition removeLayer (objects : gmap nat Layer) (id : nat)
    (on_map : gset nat) : gset nat :=
  if bool_decide (id ∈ on_map) then
    match objects !! id with
    | Some (LayerGroup ls) => (on_map ∖ list_to_set ls) ∖ {[id]}
    | _ => on_map ∖ {[id]}
    end
  else on_map.

(** [control.addOverlay(layer, name)]: one more entry, at the end. *)
Definition control_addOverlay (id : nat) (nm : string)
    (entries : list ControlEntry) : list ControlEntry :=
  entries ++ [{| layer := id; name := nm; overlay := true |}].

(** [control.removeLayer(layer)]: drops the entry that holds the layer
    with this stamp, if there is one. *)
Fixpoint control_removeLayer (id : nat)
    (entries : list ControlEntry) : list ControlEntry :=
  match entries with
  | [] => []
  | e :: es =>
      if Nat.eqb (layer e) id then es
      else e :: control_removeLayer id es
  end.

End Leaflet.

(** ** [MapComponent]: the hotspot pipeline and the overlay swap *)
Module Fire.
Import GeoJSON Leaflet.

Definition inpeUrls : list string :=
  [ "https://dataserver-coids.inpe.br/queimadas/queimadas/focos/kml/estados-48h/focos_frentes_MT.kml";
    "https://dataserver-coids.inpe.br/queimadas/queimadas/focos/kml/estados-48h/focos_frentes_MS.kml";
    "https://dataserver-coids.inpe.br/queimadas/queimadas/focos/kml/estados-48h/focos_frentes_BA.kml";
    "https://dataserver-coids.inpe.br/queimadas/queimadas/focos/kml/estados-48h/focos_frentes_MA.kml" ].

Definition fireIcon : Icon :=
  {| iconUrl := "https://img.icons8.com/plasticine/100/fire-element--v1.png";
     iconSize := (30, 30);
     iconAnchor := (15, 30);
     popupAnchor := (0%Z, (-30)%Z) |}.

Definition hotspot_overlay_name : string := "Focos de Incêndio (INPE)".
Definition default_label : string := "Foco de Incêndio".

(** *** The point filter: [feature.geometry?.type === 'Point'] *)
Definition is_point (f : Feature) : bool :=
  match geometry f with
  | Some g => String.eqb (gtype g) "Point"
  | None => false
  end.

Definition pointFeatures (fs : list Feature) : list Feature :=
  List.filter is_point fs.

Definition pointFeatureCollection (geojson : FeatureCollection)
    : FeatureCollection :=
  {| features := pointFeatures (features geojson) |}.

(** *** The annotator: the body of [onEachFeature]

    The label and the four captures are the locals of the callback,
    gathered in a record; [popupContent] is the text it builds from
    them. *)
Record HotspotRecord := {
  label : string;
  dateTime : option string;
  satellite : option string;
  municipio : option string;
  estado : option string
}.

Definition annotate (p : Properties) : HotspotRecord :=
  match description p with
  | Some (String c d) =>
      let desc := String c d in
      {| label := JS.or_else (GeoJSON.name p) default_label;
         dateTime := JS.regex_match "Data Hora UTC" desc;
         satellite := JS.regex_match "Satélite" desc;
         municipio := JS.regex_match "Município" desc;
         estado := JS.regex_match "Estado" desc |}
  | _ =>
      {| label := JS.or_else (GeoJSON.name p) default_label;
         dateTime := None; satellite := None;
         municipio := None; estado := None |}
  end.

(** [if (m?.[1]) popupContent += prefix + m[1]] *)
Definition add_row (prefix : string) (m : option string)
    (popupContent : string) : string :=
  match m with
  | Some (String c v) => popupContent +:+ prefix +:+ String c v
  | _ => popupContent
  end.

Definition popupContent (r : HotspotRecord) : string :=
  add_row "<br/>Estado: " (estado r)
    (add_row "<br/>Município: " (municipio r)
      (add_row "<br/>Satélite: " (satellite r)
        (add_row "<br/>Data/Hora: " (dateTime r)
          ("<b>" +:+ label r +:+ "</b>")))).

(** The popup bound to the marker of a feature: none when the feature has
    no properties. *)
Definition onEachFeature (f : Feature) : option string :=
  match properties f with
  | Some p => Some (popupContent (annotate p))
  | None => None
  end.

(** [L.geoJSON(collection, { pointToLayer, onEachFeature })] on a
    collection of point features: one marker per feature that has a
    geometry, in order.  The filter lets nothing but points through; on
    another geometry, which cannot reach this call, the model throws. *)
Fixpoint geoJSON_markers (fs : list Feature) : JS.Exc (list Marker) :=
  match fs with
  | [] => JS.Return []
  | f :: fs' =>
      match geometry f with
      | None => geoJSON_markers fs'
      | Some g =>
          if String.eqb (gtype g) "Point" then
            let* ll := coordsToLatLng (coordinates g) in
            let* ms := geoJSON_markers fs' in
            JS.Return ({| latlng := ll; icon := fireIcon;
                          popup := onEachFeature f |} :: ms)
          else JS.Throw "Invalid GeoJSON object."
      end
  end.

Section Pipeline.
Context `{KmlLibraries}.

(** [processKMLText]: the markers of the layer it returns, [None] for
    [null].  A document without point features gives the empty layer
    [L.geoJSON()], not [null]. *)
Definition processKMLText (kmlText sourceUrl : string)
    : JS.Exc (option (list Marker)) :=
  JS.try_catch
    (let* kmlDoc := parseFromString kmlText in
     match parsererrors kmlDoc with
     | _ :: _ => JS.Throw "Erro de parsing KML"
     | [] =>
         let* geojson := kml kmlDoc in
         match features (pointFeatureCollection geojson) with
         | [] => JS.Return (Some [])
         | pf :: pfs =>
             let* layer := geoJSON_markers (pf :: pfs) in
             JS.Return (Some layer)
         end
     end)
    (λ parseError, JS.Return None).

(** [fetchAndProcessFireKML]: through the internal proxy; [None] for
    [null]. *)
Definition fetchAndProcessFireKML (fetch : string → JS.Exc JS.Response)
    (inpeUrl : string) : JS.Exc (option (list Marker)) :=
  JS.try_catch
    (let proxyApiUrl := "/api/inpe-kml?url=" +:+ encodeURIComponent inpeUrl in
     let* response := fetch proxyApiUrl in
     if negb (JS.ok response) then JS.Throw "Erro no proxy interno!"
     else
       let* kmlText := JS.text response in
       processKMLText kmlText inpeUrl)
    (λ error, JS.Return None).
End Pipeline.

(** *** The component's state

    [objects] holds every Leaflet layer created so far under its stamp and
    [lastId] is the last stamp handed out.  [mapRef] and
    [layersControlRef] are the two refs ([None] for [null]): the map with
    the stamps of the layers on it, and the control with its entries.
    [fireDataLayers] is the [useState] cell. *)
Record Component := {
  lastId : nat;
  objects : gmap nat Layer;
  mapRef : option (gset nat);
  layersControlRef : option (list ControlEntry);
  fireDataLayers : list nat
}.

Definition unmounted : Component :=
  {| lastId := 0; objects := ∅; mapRef := None;
     layersControlRef := None; fireDataLayers := [] |}.

(** A new Leaflet object and its stamp. *)
Definition create (l : Layer) (c : Component) : nat * Component :=
  let id := S (lastId c) in
  (id, {| lastId := id; objects := <[id := l]> (objects c);
          mapRef := mapRef c; layersControlRef := layersControlRef c;
          fireDataLayers := fireDataLayers c |}).

Definition on_map (f : gset nat → gset nat) (c : Component) : Component :=
  {| lastId := lastId c; objects := objects c;
     mapRef := f <$> mapRef c;
     layersControlRef := layersControlRef c;
     fireDataLayers := fireDataLayers c |}.

Definition on_control (f : list ControlEntry → list ControlEntry)
    (c : Component) : Component :=
  {| lastId := lastId c; objects := objects c; mapRef := mapRef c;
     layersControlRef := f <$> layersControlRef c;
     fireDataLayers := fireDataLayers c |}.

Definition setFireDataLayers (ls : list nat) (c : Component) : Component :=
  {| lastId := lastId c; objects := objects c; mapRef := mapRef c;
     layersControlRef := layersControlRef c;
     fireDataLayers := ls |}.

(** The layers that [fetchAndProcessFireKML] resolved to become objects:
    each non-null result gets its stamp. *)
Fixpoint create_layers (results : list (option (list Marker)))
    (c : Component) : list (option nat) * Component :=
  match results with
  | [] => ([], c)
  | None :: rs =>
      let (ids, c') := create_layers rs c in (None :: ids, c')
  | Some ms :: rs =>
      let (id, c1) := create (GeoJSON ms) c in
      let (ids, c') := create_layers rs c1 in (Some id :: ids, c')
  end.

(** [newLayers.filter(layer => layer !== null)] *)
Definition non_null (newLayers : list (option nat)) : list nat :=
  omap id newLayers.

(** Body of the [forEach] that removes an old layer from the map and from
    the control. *)
Definition remove_old (c : Component) (old : nat) : Component :=
  on_control (control_removeLayer old)
    (on_map (removeLayer (objects c) old) c).

(** The swap, once the fetches have settled. *)
Definition swap (fireDataLayers : list nat)
    (results : list (option (list Marker))) (c : Component) : Component :=
  let (newLayers, c1) := create_layers results c in
  let validNewLayers := non_null newLayers in
  let c2 := foldl remove_old c1 fireDataLayers in
  let (fireLayerGroup, c3) := create (LayerGroup validNewLayers) c2 in
  let c4 := on_map (addLayer (objects c3) fireLayerGroup) c3 in
  let c5 := on_control
              (control_addOverlay fireLayerGroup hotspot_overlay_name) c4 in
  setFireDataLayers validNewLayers c5.

Section Reconciler.
Context `{KmlLibraries}.

(** [updateFireData], as run by a closure that captured the value
    [fireDataLayers] of the state cell; [fetch] is what the network
    answers during this cycle. *)
Definition updateFireData (fireDataLayers : list nat)
    (fetch : string → JS.Exc JS.Response) (c : Component)
    : JS.Exc Component :=
  match mapRef c with
  | None => JS.Return c
  | Some _ =>
      let* results :=
        JS.Promise_all (map (fetchAndProcessFireKML fetch) inpeUrls) in
      JS.Return (swap fireDataLayers results c)
  end.
End Reconciler.

(** *** What the user sees *)

(** The entries of the control that carry the hotspot overlay's name. *)
Definition hotspot_entries (c : Component) : list ControlEntry :=
  match layersControlRef c with
  | Some entries =>
      List.filter
        (λ e, overlay e && String.eqb (Leaflet.name e) hotspot_overlay_name)
        entries
  | None => []
  end.

(** The hotspot layers on the map, and their markers. *)
Definition layer_on_map (c : Component) (id : nat) : bool :=
  match mapRef c with
  | Some m => bool_decide (id ∈ m)
  | None => false
  end.

Definition markers_of (c : Component) (id : nat) : list Marker :=
  match objects c !! id with
  | Some (GeoJSON ms) => ms
  | _ => []
  end.

Definition markers_on_map (c : Component) : list Marker :=
  match mapRef c with
  | Some m => concat (map (markers_of c) (elements m))
  | None => []
  end.

End Fire.

(** ** [useEffect]: mounting, the refresh timer and the cleanup *)
Module View.
Import Leaflet Fire.

(** Refresh interval in milliseconds. *)
Definition REFRESH_INTERVAL : N := 600 * 1000.

Definition osm_url : string :=
  "https://{s}.tile.openstreetmap.org/{z}/{x}/{y}.png".
Definition esri_url : string :=
  "https://server.arcgisonline.com/ArcGIS/rest/services/World_Imagery/MapServer/tile/{z}/{y}/{x}".

(** The interval of [setInterval]: when it fires next, and the callback.
    The callback is the [updateFireData] of the render whose effect set
    the interval, so all it knows of the state cell is the value
    [captured] by that render. *)
Record Interval := {
  due : N;
  captured : list nat
}.

(** The mounted view on a simulated clock (milliseconds).  [container] is
    [mapContainerRef.current]; [calls] lists the times at which
    [updateFireData] was called. *)
Record View := {
  component : Component;
  container : bool;
  now : N;
  intervalId : option Interval;
  calls : list N
}.

Definition initial : View :=
  {| component := unmounted; container := true; now := 0;
     intervalId := None; calls := [] |}.

(** Map, base layers and control, as the effect sets them up.  The farm
    boundaries are loaded on their own ([loadFarmKML]) and end up as an
    overlay under another name; they play no part in what follows and are
    left out. *)
Definition init_map (c : Component) : Component :=
  let c0 := {| lastId := lastId c; objects := objects c;
               mapRef := Some ∅;
               layersControlRef := layersControlRef c;
               fireDataLayers := fireDataLayers c |} in
  let (osmLayer, c1) := create (TileLayer osm_url) c0 in
  let (esriSatelliteLayer, c2) := create (TileLayer esri_url) c1 in
  let c3 := on_map (addLayer (objects c2) osmLayer) c2 in
  {| lastId := lastId c3; objects := objects c3; mapRef := mapRef c3;
     layersControlRef :=
       Some [ {| layer := osmLayer; name := "OpenStreetMap";
                 overlay := false |};
              {| layer := esriSatelliteLayer; name := "Satélite (ESRI)";
                 overlay := false |} ];
     fireDataLayers := fireDataLayers c3 |}.

Section Scheduler.
Context `{KmlLibraries}.
(** What the network answers at each instant. *)
Variable network : N → string → JS.Exc JS.Response.

(** One call of [updateFireData] by a closure that captured [fdl]; the
    cycle is over well before the next tick. *)
Definition invoke (fdl : list nat) (v : View) : View :=
  {| component :=
       match updateFireData fdl (network (now v)) (component v) with
       | JS.Return c' => c'
       | JS.Throw _ => component v
       end;
     container := container v; now := now v;
     intervalId := intervalId v;
     calls := calls v ++ [now v] |}.

Definition set_clock (t : N) (v : View) : View :=
  {| component := component v; container := container v; now := t;
     intervalId := intervalId v; calls := calls v |}.

Definition set_interval (i : option Interval) (v : View) : View :=
  {| component := component v; container := container v; now := now v;
     intervalId := i; calls := calls v |}.

(** The body of the effect. *)
Definition effect (v : View) : View :=
  if container v && negb (bool_decide (is_Some (mapRef (component v))))
  then
    let fdl := fireDataLayers (component v) in
    let v1 := {| component := init_map (component v);
                 container := container v; now := now v;
                 intervalId := intervalId v; calls := calls v |} in
    let v2 := invoke fdl v1 in
    set_interval
      (Some {| due := now v2 + REFRESH_INTERVAL; captured := fdl |}) v2
  else v.

(** The cleanup the effect returns: [clearInterval]. *)
Definition cleanup (v : View) : View := set_interval None v.

(** The interval fires: the callback runs at the due time and the next
    firing is one period later. *)
Definition tick (v : View) : View :=
  match intervalId v with
  | Some i =>
      set_interval
        (Some {| due := due i + REFRESH_INTERVAL; captured := captured i |})
        (invoke (captured i) (set_clock (due i) v))
  | None => v
  end.

(** How many firings are due by the instant [target]. *)
Definition ticks_due (v : View) (target : N) : N :=
  match intervalId v with
  | Some i =>
      if (due i <=? target)%N
      then ((target - due i) / REFRESH_INTERVAL + 1)%N
      else 0%N
  | None => 0%N
  end.

(** The clock moves on by [dt]. *)
Definition advance (dt : N) (v : View) : View :=
  let target := (now v + dt)%N in
  set_clock target (N.iter (ticks_due v target) tick v).

Inductive Event :=
| Mount
| Advance (dt : N)
| Teardown.

Definition step (v : View) (e : Event) : View :=
  match e with
  | Mount => effect v
  | Advance dt => advance dt v
  | Teardown => cleanup v
  end.

Definition run (es : list Event) : View := foldl step initial es.
End Scheduler.

End View.

(** ** [loadFarmKML]: the style of a boundary feature *)
Module Farm.
Import GeoJSON.

Record PathOptions := {
  color : string;
  weight : nat;
  opacity : Q;
  fillOpacity : Q;
  fillColor : string
}.

Definition default_style : PathOptions :=
  {| color := "#fcb4d4"; weight := 3; opacity := 8 # 10;
     fillOpacity := 2 # 10; fillColor := "#ffffff" |}.

(** [feature?.properties?.styleUrl] *)
Definition styleUrl_of (feature : option Feature) : option string :=
  match feature with
  | Some f =>
      match properties f with
      | Some p => styleUrl p
      | None => None
      end
  | None => None
  end.

(** The [style] callback given to [L.geoJSON]. *)
Definition style (feature : option Feature) : PathOptions :=
  let style := default_style in
  match styleUrl_of feature with
  | Some (String c u) =>
      let url := String c u in
      if JS.includes url "PolyStyle007" then
        {| color := "#ffffff"; weight := 2; opacity := opacity style;
           fillOpacity := 1 # 10; fillColor := "#fcb4d4" |}
      else if JS.includes url "PolyStyle0012" then
        {| color := "#fcb4d4"; weight := 2; opacity := opacity style;
           fillOpacity := 1 # 10; fillColor := "#fcb4d4" |}
      else if JS.includes url "PolyStyle00159" then
        {| color := "#f0f0f0"; weight := 3; opacity := opacity style;
           fillOpacity := 7 # 100; fillColor := "#f0f0f0" |}
      else style
  | _ => style
  end.

End Farm.

(** ** [GET /api/inpe-kml]: the proxy *)
Module Proxy.

Inductive Body :=
| Json_error (error : string)      (* [NextResponse.json({ error })] *)
| Text (data : string).

Record NextResponse := {
  status : nat;
  content_type : string;
  body : Body
}.

(** The statuses of a response that has no body (the null body
    statuses). *)
Definition null_body_status (st : nat) : bool :=
  (st =? 101) || (st =? 103) || (st =? 204) || (st =? 205) || (st =? 304).

(** [NextResponse.json({ error }, { status })].  The platform builds the
    response with [Response.json], which checks the status: outside
    200-599 it throws a [RangeError], and since the response has a body it
    throws a [TypeError] on a null body status. *)
Definition NextResponse_json (error : string) (st : nat)
    : JS.Exc NextResponse :=
  if (st <? 200) || (599 <? st) then
    JS.Throw "RangeError: the status must be in the range of 200 to 599"
  else if null_body_status st then
    JS.Throw "TypeError: a response with a null body status cannot have a body"
  else
    JS.Return {| status := st; content_type := "application/json";
                 body := Json_error error |}.

Definition allowed_prefix : string := "https://dataserver-coids.inpe.br/".
Definition kml_mime : string := "application/vnd.google-earth.kml+xml".

(** [url] is [searchParams.get('url')], [None] for [null]; [fetch] is the
    answer of the upstream server.  The reply to an upstream failure is
    built inside the [try], so when [NextResponse.json] throws on the
    upstream status the [catch] answers. *)
Definition GET (url : option string)
    (fetch : string → JS.Exc JS.Response) : JS.Exc NextResponse :=
  match url with
  | Some (String c u) =>
      let url := String c u in
      if negb (JS.startsWith url allowed_prefix) then
        NextResponse_json "URL inválida ou não permitida." 400
      else
        JS.try_catch
          (let* response := fetch url in
           if negb (JS.ok response) then
             NextResponse_json
               ("Falha ao buscar dados do INPE: " +:+ JS.statusText response)
               (JS.status response)
           else
             let contentType :=
               JS.or_else (JS.content_type response) kml_mime in
             let* data := JS.text response in
             JS.Return {| status := 200; content_type := contentType;
                          body := Text data |})
          (λ error,
             NextResponse_json
               "Erro interno do servidor ao buscar dados do INPE." 500)
  | _ => NextResponse_json "URL inválida ou não permitida." 400
  end.

(** The two replies with a fixed status, as [NextResponse.json] builds
    them. *)
Definition invalid_url : NextResponse :=
  {| status := 400; content_type := "application/json";
     body := Json_error "URL inválida ou não permitida." |}.
Definition internal_error : NextResponse :=
  {| status := 500; content_type := "application/json";
     body := Json_error "Erro interno do servidor ao buscar dados do INPE." |}.

End Proxy.

(** ** Vocabulary of the statements *)
Module Spec.
Import GeoJSON.

(** [sub] occurs somewhere in [s]. *)
Definition substring_of (sub s : string) : Prop :=
  ∃ a b, s = a +:+ sub +:+ b.

(** A table row of the description, as the patterns expect it:
    [<td>LABEL</td><td>VALUE</td>]. *)
Definition row (label v : string) : string :=
  JS.cell_open label +:+ v +:+ JS.cell_close.

Fixpoint no_lt (v : string) : bool :=
  match v with
  | EmptyString => true
  | String c v' => negb (Ascii.eqb c "<") && no_lt v'
  end.

(** What [([^<]+)] can capture. *)
Definition cell_value (v : string) : Prop :=
  v ≠ EmptyString ∧ no_lt v = true.

(** A row for [label] with value [v] starts at position [i] of [s]. *)
Definition occurs_at (s : string) (i : nat) (label v : string) : Prop :=
  ∃ a b, s = a +:+ row label v +:+ b ∧ String.length a = i ∧ cell_value v.

(** The first row for [label] in document order carries [v]. *)
Definition first_row (s label v : string) : Prop :=
  ∃ i, occurs_at s i label v
       ∧ ∀ j v', j < i → ¬ occurs_at s j label v'.

Definition no_row (s label : string) : Prop :=
  ∀ i v, ¬ occurs_at s i label v.

(** The geometry of the feature is of type [Point]. *)
Definition point_geometry (f : Feature) : Prop :=
  ∃ g, geometry f = Some g ∧ gtype g = "Point".

(** The style tuples of the three known tokens. *)
Definition style_PolyStyle007 : Farm.PathOptions :=
  {| Farm.color := "#ffffff"; Farm.weight := 2; Farm.opacity := 8 # 10;
     Farm.fillOpacity := 1 # 10; Farm.fillColor := "#fcb4d4" |}.
Definition style_PolyStyle0012 : Farm.PathOptions :=
  {| Farm.color := "#fcb4d4"; Farm.weight := 2; Farm.opacity := 8 # 10;
     Farm.fillOpacity := 1 # 10; Farm.fillColor := "#fcb4d4" |}.
Definition style_PolyStyle00159 : Farm.PathOptions :=
  {| Farm.color := "#f0f0f0"; Farm.weight := 3; Farm.opacity := 8 # 10;
     Farm.fillOpacity := 7 # 100; Farm.fillColor := "#f0f0f0" |}.

(** What the [forEach] over the old layers leaves of the map and of the
    control. *)
Definition removed_from_map (objects : gmap nat Leaflet.Layer)
    (old : list nat) (on_map : gset nat) : gset nat :=
  foldl (λ m i, Leaflet.removeLayer objects i m) on_map old.

Definition removed_from_control (old : list nat)
    (entries : list Leaflet.ControlEntry) : list Leaflet.ControlEntry :=
  foldl (λ es i, Leaflet.control_removeLayer i es) entries old.

(** No object carries a stamp that has not been handed out. *)
Definition well_formed (c : Fire.Component) : Prop :=
  ∀ i, is_Some (Fire.objects c !! i) → i ≤ Fire.lastId c.

(** The stamps on the map have been handed out. *)
Definition map_well_formed (c : Fire.Component) : Prop :=
  ∀ m i, Fire.mapRef c = Some m → i ∈ m → i ≤ Fire.lastId c.

(** The stamp belongs to a layer made by [L.geoJSON]. *)
Definition is_GeoJSON (c : Fire.Component) (i : nat) : Prop :=
  ∃ ms, Fire.objects c !! i = Some (Leaflet.GeoJSON ms).

(** The marker is on display: it belongs to a layer that is on the map. *)
Definition shown (c : Fire.Component) (m : Leaflet.Marker) : Prop :=
  ∃ i, Fire.layer_on_map c i = true ∧ m ∈ Fire.markers_of c i.

(** The markers of the overlay registered last under the hotspot name:
    the aggregate of the latest cycle. *)
Definition aggregate (c : Fire.Component) : list Leaflet.Marker :=
  match last (Fire.hotspot_entries c) with
  | Some e =>
      match Fire.objects c !! Leaflet.layer e with
      | Some (Leaflet.LayerGroup ls) => concat (map (Fire.markers_of c) ls)
      | _ => []
      end
  | None => []
  end.

(** The first [n] multiples of the refresh period, from 0. *)
Definition multiples (n : nat) : list N :=
  map (λ j, (N.of_nat j * View.REFRESH_INTERVAL)%N) (seq 0 n).

(** The time that a list of advances of the clock adds up to. *)
Definition total (dts : list N) : N := foldr N.add 0%N dts.

(** What holds of the view whatever happens to it: the reconciler only
    runs on a mounted map, through the closure of the mounting render
    (which saw [fireDataLayers] empty), and each of its runs left one more
    entry under the hotspot name. *)
Definition view_invariant (v : View.View) : Prop :=
  (Fire.mapRef (View.component v) = None →
     Fire.layersControlRef (View.component v) = None
     ∧ View.intervalId v = None
     ∧ View.calls v = []
     ∧ Fire.fireDataLayers (View.component v) = [])
  ∧ (is_Some (Fire.mapRef (View.component v)) →
     is_Some (Fire.layersControlRef (View.component v)))
  ∧ (∀ i, View.intervalId v = Some i →
          View.captured i = []
          ∧ is_Some (Fire.mapRef (View.component v)))
  ∧ length (Fire.hotspot_entries (View.component v))
    = length (View.calls v).

(** The control holds no layer of the generation in [fireDataLayers]: its
    entries were made before, or are the groups made of such layers. *)
Definition entries_apart (c : Fire.Component) : Prop :=
  ∃ m es,
    Fire.mapRef c = Some m
    ∧ Fire.layersControlRef c = Some es
    ∧ Forall (λ e, Leaflet.layer e ≤ Fire.lastId c) es
    ∧ Forall (λ i, Forall (λ e, Leaflet.layer e ≠ i) es)
        (Fire.fireDataLayers c).

(** The timer between two firings: [k] periods have elapsed in full. *)
Definition timer_invariant (v : View.View) : Prop :=
  ∃ k : nat,
    View.intervalId v
    = Some {| View.due := ((N.of_nat k + 1) * View.REFRESH_INTERVAL)%N;
              View.captured := [] |}
    ∧ View.calls v = multiples (S k)
    ∧ N.of_nat k = (View.now v / View.REFRESH_INTERVAL)%N.

Section Sources.
Context `{KmlLibraries}.
Import Leaflet Fire.

(** The ways a source fails.  Each gives [null]. *)
Inductive source_fails (fetch : string → JS.Exc JS.Response)
    (inpeUrl : string) : Prop :=
| network_error e :
    fetch ("/api/inpe-kml?url=" +:+ encodeURIComponent inpeUrl)
      = JS.Throw e →
    source_fails fetch inpeUrl
| non_success_status resp :
    fetch ("/api/inpe-kml?url=" +:+ encodeURIComponent inpeUrl)
      = JS.Return resp →
    JS.ok resp = false →
    source_fails fetch inpeUrl
| parse_error resp t :
    fetch ("/api/inpe-kml?url=" +:+ encodeURIComponent inpeUrl)
      = JS.Return resp →
    JS.ok resp = true → JS.text resp = JS.Return t →
    ((∃ e, parseFromString t = JS.Throw e)
     ∨ (∃ d, parseFromString t = JS.Return d ∧ parsererrors d ≠ [])
     ∨ (∃ d e, parseFromString t = JS.Return d ∧ kml d = JS.Throw e)) →
    source_fails fetch inpeUrl.

(** A source succeeds with the point features [fs] of its document. *)
Definition source_succeeds (fetch : string → JS.Exc JS.Response)
    (inpeUrl : string) (fs : list Feature) : Prop :=
  ∃ resp t d geojson,
    fetch ("/api/inpe-kml?url=" +:+ encodeURIComponent inpeUrl)
      = JS.Return resp
    ∧ JS.ok resp = true ∧ JS.text resp = JS.Return t
    ∧ parseFromString t = JS.Return d ∧ parsererrors d = []
    ∧ kml d = JS.Return geojson
    ∧ fs = features (pointFeatureCollection geojson).

(** The annotated record of a point feature: its marker. *)
Definition annotated (f : Feature) (m : Marker) : Prop :=
  ∃ g, geometry f = Some g
       ∧ coordsToLatLng (coordinates g) = JS.Return (latlng m)
       ∧ icon m = fireIcon
       ∧ popup m = onEachFeature f.

(** Cycles in a row, each run by a closure that sees the state cell as the
    cycle before it left it, which is what the comments of [updateFireData]
    have in mind. *)
Definition fresh_cycles (fetches : list (string → JS.Exc JS.Response))
    (c : Component) : Component :=
  foldl (λ c fetch,
           match updateFireData (fireDataLayers c) fetch c with
           | JS.Return c' => c'
           | JS.Throw _ => c
           end) c fetches.

(** The marker is one of those the sources deliver when the network
    answers [fetch]: some source resolves to a layer that holds it. *)
Definition delivered (fetch : string → JS.Exc JS.Response) (mk : Marker)
    : Prop :=
  ∃ url ms, url ∈ inpeUrls
            ∧ fetchAndProcessFireKML fetch url = JS.Return (Some ms)
            ∧ mk ∈ ms.

(** Every source fails: each resolves to [null]. *)
Definition total_failure (fetch : string → JS.Exc JS.Response) : Prop :=
  ∀ url, url ∈ inpeUrls → fetchAndProcessFireKML fetch url = JS.Return None.

(** What is on display is what the cycles run so far have delivered, each
    at its instant. *)
Definition display_invariant (network : N → string → JS.Exc JS.Response)
    (v : View.View) : Prop :=
  well_formed (View.component v)
  ∧ map_well_formed (View.component v)
  ∧ ∀ mk, shown (View.component v) mk
          ↔ ∃ t, t ∈ View.calls v ∧ delivered (network t) mk.

End Sources.

End Spec.

(** ** A stand-in for the libraries, for the examples

    A document is its text.  Three texts are well-formed: ["hotspot"] holds
    one point feature, ["line"] one line, ["empty"] no feature.  Any other
    text has a parser error. *)
Module Stub.
Import GeoJSON.

Definition hotspot : Feature :=
  {| geometry := Some {| gtype := "Point";
                         coordinates := [(-555 # 10)%Q; (-125 # 10)%Q] |};
     properties := Some {| name := None; description := None;
                           styleUrl := None |} |}.

Definition line : Feature :=
  {| geometry := Some {| gtype := "LineString";
                         coordinates := [] |};
     properties := Some {| name := None; description := None;
                           styleUrl := None |} |}.

(** A description with two rows, and properties that carry it. *)
Definition two_rows : string :=
  "<td>Data Hora UTC</td><td>2024-08-01 12:00</td><td>Satélite</td><td>AQUA_M-T</td>".

Definition described : Properties :=
  {| name := None; description := Some two_rows; styleUrl := None |}.

(** A boundary feature that refers to a known style. *)
Definition styled : Feature :=
  {| geometry := None;
     properties := Some {| name := None; description := None;
                           styleUrl := Some "#PolyStyle0012" |} |}.

Definition known_text (d : string) : bool :=
  String.eqb d "hotspot" || String.eqb d "line" || String.eqb d "empty".

Definition libraries : KmlLibraries :=
  {| Document := string;
     parseFromString := λ t, JS.Return t;
     parsererrors := λ d, if known_text d then [] else ["syntax error"];
     kml := λ d,
       JS.Return
         {| features :=
              if String.eqb d "hotspot" then [hotspot]
              else if String.eqb d "line" then [line]
              else [] |};
     encodeURIComponent := λ u, u |}.

(** A successful answer of the proxy with the given text. *)
Definition answer (t : string) : JS.Response :=
  {| JS.status := 200; JS.statusText := "OK";
     JS.content_type := Some "application/vnd.google-earth.kml+xml";
     JS.text := JS.Return t |}.

(** Every fetch is rejected. *)
Definition all_fail : string → JS.Exc JS.Response :=
  λ _, JS.Throw "Failed to fetch".

(** The first source answers with the text, the others are rejected. *)
Definition first_answers (t : string) : string → JS.Exc JS.Response :=
  λ u, if String.eqb u ("/api/inpe-kml?url=" +:+ hd "" Fire.inpeUrls)
       then JS.Return (answer t)
       else JS.Throw "Failed to fetch".

(** The component once the effect has set up the map and the control. *)
Definition mounted : Fire.Component := View.init_map Fire.unmounted.

(** The component after a first cycle in which the first source gave
    [hotspot] and the others failed. *)
Definition after_first_cycle : Fire.Component :=
  match @Fire.updateFireData libraries [] (first_answers "hotspot") mounted
  with
  | JS.Return c => c
  | JS.Throw _ => mounted
  end.

(** The marker of [hotspot]. *)
Definition hotspot_marker : Leaflet.Marker :=
  {| Leaflet.latlng := {| Leaflet.lat := (-125 # 10)%Q;
                          Leaflet.lng := (-555 # 10)%Q |};
     Leaflet.icon := Fire.fireIcon;
     Leaflet.popup := Some "<b>Foco de Incêndio</b>" |}.

End Stub.

(** ** [loadFarmKML]: loading a boundary layer

    What Leaflet makes of a geometry when it builds the layer of a feature
    ([geometryToLayer]) is not part of the repository: the bounds of the
    layer, none when it has no extent, or an exception on an invalid
    object. *)
Class LeafletGeometry := {
  Bounds : Type;
  layer_bounds : GeoJSON.Geometry → JS.Exc (option Bounds)
}.

Module Boundary.
Import GeoJSON Leaflet Fire.

(** The farm files of the effect. *)
Definition farmKMLs : list (string * string) :=
  [ ("/doc.kml", "Propriedades Infiniti e Industrias INPASA") ].

(** The [onEachFeature] of the farm layer: the popup of a feature. *)
Definition farm_popup (feature : Feature) : string :=
  match properties feature with
  | Some p =>
      match GeoJSON.name p with
      | Some (String c n) => "<b>" +:+ String c n +:+ "</b>"
      | _ => "<b>Perímetro da Fazenda</b>"
      end
  | None => "<b>Perímetro da Fazenda</b>"
  end.

Section Shapes.
Context `{LeafletGeometry}.

(** One layer of the farm layer: the feature drawn, the style handed to
    the [setStyle] of its layer ([None] when the layer has no [setStyle]),
    the popup that [onEachFeature] bound to it, and its bounds. *)
Record Shape := {
  drawn : Feature;
  path : option Farm.PathOptions;
  shape_popup : string;
  extent : option Bounds
}.

(** Leaflet draws a [Point] as an [L.Marker], which has no [setStyle]: for
    such a layer [_setLayerStyle] does not call the [style] option.  Every
    other geometry it accepts becomes a path or a group of layers, and the
    [setStyle] of that layer is given what the [style] callback returns
    for the feature. *)
Definition has_setStyle (g : Geometry) : bool :=
  negb (String.eqb (gtype g) "Point").

(** [L.geoJSON(geojson, { style, onEachFeature })]: one layer per feature
    that has a geometry, in order. *)
Fixpoint geoJSON_shapes (fs : list Feature) : JS.Exc (list Shape) :=
  match fs with
  | [] => JS.Return []
  | f :: fs' =>
      match geometry f with
      | None => geoJSON_shapes fs'
      | Some g =>
          let* b := layer_bounds g in
          let* ss := geoJSON_shapes fs' in
          JS.Return ({| drawn := f;
                        path := if has_setStyle g
                                then Some (Farm.style (Some f))
                                else None;
                        shape_popup := farm_popup f; extent := b |} :: ss)
      end
  end.

(** [newFarmLayer.getBounds().isValid()]: some layer has an extent. *)
Definition bounds_valid (shapes : list Shape) : bool :=
  existsb (λ s, bool_decide (is_Some (extent s))) shapes.

(** The page: the component, the farm layers made so far under their
    stamps, [farmLayerRef] ([None] for [null]) and the layers the map was
    fitted to by [fitBounds], oldest first. *)
Record Page := {
  component : Component;
  farm_objects : gmap nat (list Shape);
  farmLayerRef : option nat;
  fitted : list nat
}.

(** The new farm layer is made and, when the map exists, put on it, listed
    in the control and remembered; the map is fitted to it when it is the
    first one and its bounds are valid. *)
Definition add_farm_layer (layerName : string) (shapes : list Shape)
    (p : Page) : Page :=
  let newFarmLayer := S (lastId (component p)) in
  let c0 := {| lastId := newFarmLayer; objects := objects (component p);
               mapRef := mapRef (component p);
               layersControlRef := layersControlRef (component p);
               fireDataLayers := fireDataLayers (component p) |} in
  let made := <[newFarmLayer := shapes]> (farm_objects p) in
  match mapRef c0 with
  | None =>
      {| component := c0; farm_objects := made;
         farmLayerRef := farmLayerRef p; fitted := fitted p |}
  | Some _ =>
      let c1 := on_map (addLayer (objects c0) newFarmLayer) c0 in
      let c2 := on_control (control_addOverlay newFarmLayer layerName) c1 in
      {| component := c2; farm_objects := made;
         farmLayerRef := Some newFarmLayer;
         fitted :=
           match farmLayerRef p with
           | None =>
               if bounds_valid shapes then fitted p ++ [newFarmLayer]
               else fitted p
           | Some _ => fitted p
           end |}
  end.

Context `{KmlLibraries}.

(** [loadFarmKML] *)
Definition loadFarmKML (fetch : string → JS.Exc JS.Response)
    (kmlUrl layerName : string) (p : Page) : JS.Exc Page :=
  JS.try_catch
    (let* response := fetch kmlUrl in
     if negb (JS.ok response) then
       JS.Throw "Erro ao carregar KML da fazenda!"
     else
       let* kmlText := JS.text response in
       let* kmlDoc := parseFromString kmlText in
       match parsererrors kmlDoc with
       | _ :: _ => JS.Throw "Erro de parsing KML da fazenda"
       | [] =>
           let* geojson := kml kmlDoc in
           match features geojson with
           | [] => JS.Return p
           | f :: fs =>
               let* newFarmLayer := geoJSON_shapes (f :: fs) in
               JS.Return (add_farm_layer layerName newFarmLayer p)
           end
       end)
    (λ error, JS.Return p).

(** Farm files that finish loading one after the other, each with what the
    network answered for it. *)
Definition load_all
    (loads : list ((string → JS.Exc JS.Response) * (string * string)))
    (p : Page) : Page :=
  foldl (λ p l,
           match loadFarmKML l.1 l.2.1 l.2.2 p with
           | JS.Return p' => p'
           | JS.Throw _ => p
           end) p loads.
End Shapes.

End Boundary.

(** ** From the browser to the upstream server

    The request [fetch('/api/inpe-kml?url=' + encodeURIComponent(inpeUrl))]
    of the map reaches [GET] with [searchParams.get('url')] holding the
    decoded parameter, and what [GET] answers is what that [fetch]
    resolves to.  Decoding the query and writing the JSON of an error are
    the platform's. *)
Module Route.

Section Served.
Variable decodeURIComponent : string → string.
Variable stringify_error : string → string.

(** The reply of the route, as the browser's [fetch] reads it. *)
Definition as_fetched (r : Proxy.NextResponse) : JS.Response :=
  {| JS.status := Proxy.status r;
     JS.statusText := EmptyString;
     JS.content_type := Some (Proxy.content_type r);
     JS.text :=
       JS.Return
         match Proxy.body r with
         | Proxy.Text data => data
         | Proxy.Json_error error => stringify_error error
         end |}.

(** The network as the map sees it when the upstream server answers
    [upstream]: a request to the route is answered by [GET]; no other
    address is served. *)
Definition served (upstream : string → JS.Exc JS.Response)
    (request : string) : JS.Exc JS.Response :=
  match JS.strip_prefix "/api/inpe-kml?url=" request with
  | Some q =>
      let* r := Proxy.GET (Some (decodeURIComponent q)) upstream in
      JS.Return (as_fetched r)
  | None => JS.Throw "Failed to fetch"
  end.
End Served.

End Route.

(** ** Vocabulary of further statements *)
Module Props.
Import GeoJSON Leaflet Fire.

(** The entries of the control, none when there is no control. *)
Definition entries (c : Component) : list ControlEntry :=
  match layersControlRef c with
  | Some es => es
  | None => []
  end.

(** An overlay of the control whose layer is on the map and was not made
    by [L.geoJSON] for the hotspots: the farm layer is one. *)
Definition other_overlay (c : Component) (e : ControlEntry) : Prop :=
  e ∈ entries c
  ∧ layer_on_map c (layer e) = true
  ∧ ¬ Spec.is_GeoJSON c (layer e).

Section Boundaries.
Context `{LeafletGeometry}.

(** A feature with a geometry, as the farm layer draws it: a point
    without a style, any other geometry with the style of the feature. *)
Definition drawn_as (f : Feature) (s : Boundary.Shape) : Prop :=
  Boundary.drawn s = f
  ∧ Boundary.shape_popup s = Boundary.farm_popup f
  ∧ ∃ g, geometry f = Some g
         ∧ (gtype g = "Point" → Boundary.path s = None)
         ∧ (gtype g ≠ "Point" →
            Boundary.path s = Some (Farm.style (Some f)))
         ∧ layer_bounds g = JS.Return (Boundary.extent s).

(** The features that have a geometry. *)
Definition with_geometry (fs : list Feature) : list Feature :=
  List.filter (λ f, bool_decide (is_Some (geometry f))) fs.

(** The stamps of the layers made and of the layers on the map have been
    handed out. *)
Definition page_well_formed (p : Boundary.Page) : Prop :=
  Spec.well_formed (Boundary.component p)
  ∧ Spec.map_well_formed (Boundary.component p).

(** [fitBounds] was called at most once, and never before a farm layer was
    remembered. *)
Definition fitted_once (p : Boundary.Page) : Prop :=
  length (Boundary.fitted p) ≤ 1
  ∧ (Boundary.farmLayerRef p = None → Boundary.fitted p = []).
End Boundaries.

End Props.

(** ** Further stand-ins, for the examples *)
Module Sample.
Import GeoJSON.

(** Geometries as the stand-in draws them: the bounds of a geometry are its
    coordinates; a geometry without coordinates has no extent and one of
    type ["Unknown"] is invalid. *)
Definition geometry : LeafletGeometry :=
  {| Bounds := list Q;
     layer_bounds := λ g,
       if String.eqb (gtype g) "Unknown"
       then JS.Throw "Invalid GeoJSON object."
       else JS.Return match coordinates g with
                      | [] => None
                      | x :: xs => Some (x :: xs)
                      end |}.

(** A page whose map exists and holds nothing of the farm yet. *)
Definition page : @Boundary.Page geometry :=
  {| Boundary.component := Stub.mounted;
     Boundary.farm_objects := ∅;
     Boundary.farmLayerRef := None;
     Boundary.fitted := [] |}.

(** The page once the first cycle of the mount is over, with nothing of
    the farm yet. *)
Definition page_after_first_cycle : @Boundary.Page geometry :=
  {| Boundary.component := Stub.after_first_cycle;
     Boundary.farm_objects := ∅;
     Boundary.farmLayerRef := None;
     Boundary.fitted := [] |}.

(** An upstream server that answers every request with the text. *)
Definition upstream (t : string) : string → JS.Exc JS.Response :=
  λ _, JS.Return (Stub.answer t).

End Sample.

(** * Properties *)

(** ** Strings *)
Section Strings.
Import JS Spec.
#[local] Arguments String.append : simpl nomatch.

Lemma append_assoc (a b c : string) : (a +:+ b) +:+ c = a +:+ b +:+ c.
Proof. induction a as [|x a IH]; simpl; [done | by f_equal]. Qed.

Lemma strip_prefix_spec (p s r : string) :
  strip_prefix p s = Some r ↔ s = p +:+ r.
Proof.
  revert s. induction p as [|a p IH]; intros s; simpl.
  - split; [by intros [= ->] | by intros ->].
  - destruct s as [|b s]; [split; discriminate |].
    destruct (Ascii.eqb_spec a b) as [->|Hne].
    + rewrite IH. split; [by intros -> | by intros [= ->]].
    + split; [discriminate | intros [= ? ?]; congruence].
Qed.

Lemma strip_prefix_app (p r : string) : strip_prefix p (p +:+ r) = Some r.
Proof. by apply strip_prefix_spec. Qed.

Lemma startsWith_spec (s p : string) :
  startsWith s p = true ↔ ∃ r, s = p +:+ r.
Proof.
  unfold startsWith. destruct (strip_prefix p s) as [r|] eqn:E.
  - apply strip_prefix_spec in E. split; eauto.
  - split; [discriminate |]. intros [r Hr].
    apply strip_prefix_spec in Hr. congruence.
Qed.

(** [includes] decides whether the text occurs. *)
Lemma includes_spec (s sub : string) :
  includes s sub = true ↔ substring_of sub s.
Proof.
  unfold substring_of. induction s as [|c s IH]; simpl.
  - destruct (startsWith "" sub) eqn:E.
    + apply startsWith_spec in E as [r Hr]. split; [|done].
      intros _. by exists EmptyString, r.
    + split; [discriminate |]. intros (a & b & Hab).
      destruct a; simpl in Hab; [|discriminate].
      assert (startsWith "" sub = true) by (apply startsWith_spec; eauto).
      congruence.
  - destruct (startsWith (String c s) sub) eqn:E.
    + apply startsWith_spec in E as [r Hr]. split; [|done].
      intros _. by exists EmptyString, r.
    + rewrite IH. split.
      * intros (a & b & ->). by exists (String c a), b.
      * intros (a & b & Hab). destruct a as [|x a]; simpl in Hab.
        -- assert (startsWith (String c s) sub = true)
             by (apply startsWith_spec; eauto).
           congruence.
        -- injection Hab as -> ->. eauto.
Qed.

Lemma span_cell_split (s v r : string) :
  span_cell s = (v, r) → s = v +:+ r ∧ no_lt v = true.
Proof.
  revert v r. induction s as [|c s IH]; intros v r; simpl.
  - by intros [= <- <-].
  - destruct (Ascii.eqb c "<") eqn:E.
    + by intros [= <- <-].
    + destruct (span_cell s) as [v' r'] eqn:E'. intros [= <- <-].
      destruct (IH _ _ eq_refl) as [-> Hv]. simpl. by rewrite E, Hv.
Qed.

Lemma span_cell_value (v r : string) :
  no_lt v = true → span_cell (v +:+ String "<" r) = (v, String "<" r).
Proof.
  induction v as [|c v IH]; simpl; [done |].
  intros [Hc Hv]%andb_prop. apply negb_true_iff in Hc.
  by rewrite Hc, IH.
Qed.

Lemma row_app (label v b : string) :
  row label v +:+ b = cell_open label +:+ v +:+ String "<" ("/td>" +:+ b).
Proof. unfold row, cell_close. by rewrite !append_assoc. Qed.

(** A match at the first character is a row that starts there. *)
Lemma match_here_spec (label s v : string) :
  match_here label s = Some v ↔ ∃ b, s = row label v +:+ b ∧ cell_value v.
Proof.
  unfold match_here. split.
  - destruct (strip_prefix (cell_open label) s) as [rest|] eqn:E; [|done].
    apply strip_prefix_spec in E.
    destruct (span_cell rest) as [w r] eqn:Es.
    apply span_cell_split in Es as [-> Hw].
    destruct w as [|c w]; [done |].
    destruct (startsWith r cell_close) eqn:Ec; [|done].
    intros [= <-]. apply startsWith_spec in Ec as [b ->].
    exists b. split; [|by split].
    subst s. unfold row. by rewrite !append_assoc.
  - intros (b & -> & Hne & Hv). rewrite row_app, strip_prefix_app.
    rewrite (span_cell_value _ _ Hv). destruct v; [done |].
    by replace (startsWith _ _) with true.
Qed.

Lemma occurs_at_0 (s label v : string) :
  occurs_at s 0 label v ↔ match_here label s = Some v.
Proof.
  rewrite match_here_spec. unfold occurs_at. split.
  - intros (a & b & -> & Ha & Hv). destruct a; [|done]. eauto.
  - intros (b & -> & Hv). by exists EmptyString, b.
Qed.

Lemma occurs_at_S (c : ascii) (s : string) (i : nat) (label v : string) :
  occurs_at (String c s) (S i) label v ↔ occurs_at s i label v.
Proof.
  unfold occurs_at. split.
  - intros (a & b & Hs & Ha & Hv). destruct a as [|x a]; [done |].
    simpl in *. injection Hs as -> ->. injection Ha as <-. eauto.
  - intros (a & b & -> & <- & Hv). by exists (String c a), b.
Qed.

Lemma occurs_at_empty (i : nat) (label v : string) :
  ¬ occurs_at EmptyString (S i) label v.
Proof. intros (a & b & Hs & Ha & _). by destruct a. Qed.

(** The capture is the value of the first row in document order. *)
Lemma regex_match_first (label s v : string) :
  regex_match label s = Some v ↔ first_row s label v.
Proof.
  unfold first_row. revert v. induction s as [|c s IH]; intros v.
  - cbn [regex_match]. destruct (match_here label "") as [w|] eqn:E.
    + split.
      * intros [= <-]. exists 0. split; [by apply occurs_at_0 | lia].
      * intros ([|i] & Hi & _).
        -- apply occurs_at_0 in Hi. congruence.
        -- by apply occurs_at_empty in Hi.
    + split; [done |]. intros ([|i] & Hi & _).
      * apply occurs_at_0 in Hi. congruence.
      * by apply occurs_at_empty in Hi.
  - cbn [regex_match]. destruct (match_here label (String c s)) as [w|] eqn:E.
    + split.
      * intros [= <-]. exists 0. split; [by apply occurs_at_0 | lia].
      * intros ([|i] & Hi & Hmin).
        -- apply occurs_at_0 in Hi. congruence.
        -- exfalso. apply (Hmin 0 w); [lia | by apply occurs_at_0].
    + rewrite IH. split.
      * intros (i & Hi & Hmin). exists (S i). split.
        -- by apply occurs_at_S.
        -- intros [|j] v' Hj Hocc.
           ++ apply occurs_at_0 in Hocc. congruence.
           ++ apply occurs_at_S in Hocc. apply (Hmin j v'); [lia | done].
      * intros ([|i] & Hi & Hmin).
        -- apply occurs_at_0 in Hi. congruence.
        -- exists i. split; [by apply occurs_at_S in Hi |].
           intros j v' Hj Hocc. apply (Hmin (S j) v'); [lia |].
           by apply occurs_at_S.
Qed.

(** No capture exactly when the description has no such row. *)
Lemma regex_match_none (label s : string) :
  regex_match label s = None ↔ no_row s label.
Proof.
  unfold no_row. induction s as [|c s IH]; cbn [regex_match].
  - destruct (match_here label "") as [w|] eqn:E.
    + split; [done |]. intros Hno. exfalso.
      apply (Hno 0 w). by apply occurs_at_0.
    + split; [|done]. intros _ [|i] v Hocc.
      * apply occurs_at_0 in Hocc. congruence.
      * by apply occurs_at_empty in Hocc.
  - destruct (match_here label (String c s)) as [w|] eqn:E.
    + split; [done |]. intros Hno. exfalso.
      apply (Hno 0 w). by apply occurs_at_0.
    + rewrite IH. split.
      * intros Hno [|i] v Hocc.
        -- apply occurs_at_0 in Hocc. congruence.
        -- apply occurs_at_S in Hocc. by apply (Hno i v).
      * intros Hno i v Hocc. apply (Hno (S i) v). by apply occurs_at_S.
Qed.

End Strings.

(** ** The point filter *)
Section PointFilter.
Import GeoJSON Fire Spec.

Lemma is_point_spec (f : Feature) : is_point f = true ↔ point_geometry f.
Proof.
  unfold is_point, point_geometry. destruct (geometry f) as [g|].
  - rewrite String.eqb_eq. split; [eauto | by intros (? & [= <-] & ?)].
  - split; [done | by intros (? & ? & _)].
Qed.

Lemma pointFeatures_id (fs : list Feature) :
  Forall point_geometry fs → pointFeatures fs = fs.
Proof.
  unfold pointFeatures.
  induction 1 as [|f fs Hf _ IH]; simpl; [done |].
  apply is_point_spec in Hf. by rewrite Hf, IH.
Qed.

Lemma pointFeatures_sublist (fs : list Feature) :
  pointFeatures fs `sublist_of` fs.
Proof.
  unfold pointFeatures.
  induction fs as [|f fs IH]; simpl; [constructor |].
  destruct (is_point f); by constructor.
Qed.

Lemma pointFeatures_elem (fs : list Feature) (f : Feature) :
  f ∈ pointFeatures fs ↔ f ∈ fs ∧ point_geometry f.
Proof.
  unfold pointFeatures. rewrite !list_elem_of_In, filter_In.
  by rewrite is_point_spec.
Qed.

Lemma pointFeatures_all_points (fs : list Feature) :
  Forall point_geometry (pointFeatures fs).
Proof.
  apply Forall_forall. intros f Hf.
  by apply pointFeatures_elem in Hf as [_ Hf].
Qed.

(** C8.  The point filter keeps exactly the features whose geometry type
    is [Point], in their order, and returns a collection of point features
    unchanged; in particular filtering twice is filtering once. *)
Theorem point_filter_exact_idempotent (geojson : FeatureCollection) :
  (Forall point_geometry (features geojson) →
     pointFeatureCollection geojson = geojson)
  ∧ (∀ f, f ∈ features (pointFeatureCollection geojson)
          ↔ f ∈ features geojson ∧ point_geometry f)
  ∧ features (pointFeatureCollection geojson) `sublist_of` features geojson
  ∧ pointFeatureCollection (pointFeatureCollection geojson)
    = pointFeatureCollection geojson.
Proof.
  destruct geojson as [fs]. unfold pointFeatureCollection. simpl.
  split; [|split; [|split]].
  - intros Hall. by rewrite pointFeatures_id.
  - intros f. apply pointFeatures_elem.
  - apply pointFeatures_sublist.
  - f_equal. apply pointFeatures_id, pointFeatures_all_points.
Qed.

Lemma point_filter_exact_idempotent_witness :
  pointFeatureCollection {| features := [Stub.hotspot; Stub.hotspot] |}
  = {| features := [Stub.hotspot; Stub.hotspot] |}.
Proof.
  apply (proj1 (point_filter_exact_idempotent
                  {| features := [Stub.hotspot; Stub.hotspot] |})).
  repeat constructor; eexists; split; reflexivity.
Defined.

End PointFilter.

(** ** The annotator *)
Section Annotator.
Import GeoJSON Fire Spec.
#[local] Arguments String.append : simpl nomatch.






(** C5, as amended.  The rows are table rows
    [<td>LABEL</td><td>VALUE</td>].  When the first row for
    [Data Hora UTC] carries [2024-08-01 12:00] and the first row for
    [Satélite] carries [AQUA_M-T], the observed-time and sensor fields
    equal these values; each of the four fields is the value of the first
    row for its label in document order, and is absent exactly when the
    description has no row for that label. *)
Theorem field_extraction (p : Properties) (desc : string) :
  description p = Some desc → desc ≠ EmptyString →
  (first_row desc "Data Hora UTC" "2024-08-01 12:00" →
     dateTime (annotate p) = Some "2024-08-01 12:00")
  ∧ (first_row desc "Satélite" "AQUA_M-T" →
     satellite (annotate p) = Some "AQUA_M-T")
  ∧ (∀ v, dateTime (annotate p) = Some v ↔ first_row desc "Data Hora UTC" v)
  ∧ (∀ v, satellite (annotate p) = Some v ↔ first_row desc "Satélite" v)
  ∧ (∀ v, municipio (annotate p) = Some v ↔ first_row desc "Município" v)
  ∧ (∀ v, estado (annotate p) = Some v ↔ first_row desc "Estado" v)
  ∧ (dateTime (annotate p) = None ↔ no_row desc "Data Hora UTC")
  ∧ (satellite (annotate p) = None ↔ no_row desc "Satélite")
  ∧ (municipio (annotate p) = None ↔ no_row desc "Município")
  ∧ (estado (annotate p) = None ↔ no_row desc "Estado").
Proof.
  intros Hd Hne. unfold annotate. rewrite Hd.
  destruct desc as [|c d]; [done |]. cbn [dateTime satellite municipio estado].
  repeat split;
    try (by intros ?%regex_match_first);
    try (by apply regex_match_first);
    try (by intros ?%regex_match_none);
    try (by apply regex_match_none).
Qed.

Lemma field_extraction_witness :
  dateTime (annotate Stub.described) = Some "2024-08-01 12:00".
Proof.
  refine (proj1 (field_extraction Stub.described Stub.two_rows eq_refl _) _).
  - discriminate.
  - exists 0. split; [|lia].
    exists EmptyString, "<td>Satélite</td><td>AQUA_M-T</td>".
    repeat split. discriminate.
Defined.

(** C5, as stated, fails.  A description that holds the two rows in the
    form [Label: value] gives neither field.  And a description that holds
    them as table rows, after another row for [Satélite], gives the sensor
    of that earlier row. *)
Lemma field_extraction_counterexample :
  let desc := "Data Hora UTC: 2024-08-01 12:00<br/>Satélite: AQUA_M-T" in
  let p := {| name := None; description := Some desc; styleUrl := None |} in
  let desc' :=
    "<td>Satélite</td><td>NOAA-20</td><td>Data Hora UTC</td><td>2024-08-01 12:00</td><td>Satélite</td><td>AQUA_M-T</td>" in
  let p' := {| name := None; description := Some desc'; styleUrl := None |} in
  (substring_of "Data Hora UTC: 2024-08-01 12:00" desc
   ∧ substring_of "Satélite: AQUA_M-T" desc
   ∧ dateTime (annotate p) ≠ Some "2024-08-01 12:00"
   ∧ satellite (annotate p) ≠ Some "AQUA_M-T")
  ∧ (substring_of (row "Data Hora UTC" "2024-08-01 12:00") desc'
     ∧ substring_of (row "Satélite" "AQUA_M-T") desc'
     ∧ satellite (annotate p') ≠ Some "AQUA_M-T").
Proof.
  split; repeat split.
  - by exists EmptyString, "<br/>Satélite: AQUA_M-T".
  - by exists "Data Hora UTC: 2024-08-01 12:00<br/>", EmptyString.
  - by vm_compute.
  - by vm_compute.
  - by exists "<td>Satélite</td><td>NOAA-20</td>",
              "<td>Satélite</td><td>AQUA_M-T</td>".
  - by exists "<td>Satélite</td><td>NOAA-20</td><td>Data Hora UTC</td><td>2024-08-01 12:00</td>",
              EmptyString.
  - by vm_compute.
Qed.

(** When several rows match, the first one is extracted. *)
Example first_of_two_rows :
  satellite
    (annotate
       {| name := None;
          description :=
            Some "<td>Satélite</td><td>AQUA_M-T</td><td>Satélite</td><td>NOAA-20</td>";
          styleUrl := None |})
  = Some "AQUA_M-T".
Proof. reflexivity. Qed.

End Annotator.

(** ** Boundary styles *)
Section BoundaryStyle.
Import GeoJSON Farm Spec.

Lemma includes_false (s sub : string) :
  JS.includes s sub = false ↔ ¬ substring_of sub s.
Proof.
  split.
  - intros Hf Hs. apply includes_spec in Hs. congruence.
  - intros Hn. destruct (JS.includes s sub) eqn:E; [|done].
    by apply includes_spec in E.
Qed.

(** C9, as amended.  The style is a function of the style reference alone.
    The tokens are tried in the order [PolyStyle007], [PolyStyle0012],
    [PolyStyle00159]: a reference resolves to the fixed tuple of the first
    of them it contains, and to the default tuple when it is missing,
    empty or contains none of them.  The default's stroke and fill colours
    differ. *)
Theorem style_resolution (feature : option Feature) :
  (∀ u, styleUrl_of feature = Some u →
     substring_of "PolyStyle007" u →
     style feature = style_PolyStyle007)
  ∧ (∀ u, styleUrl_of feature = Some u →
       ¬ substring_of "PolyStyle007" u →
       substring_of "PolyStyle0012" u →
       style feature = style_PolyStyle0012)
  ∧ (∀ u, styleUrl_of feature = Some u →
       ¬ substring_of "PolyStyle007" u →
       ¬ substring_of "PolyStyle0012" u →
       substring_of "PolyStyle00159" u →
       style feature = style_PolyStyle00159)
  ∧ (∀ u, styleUrl_of feature = Some u →
       ¬ substring_of "PolyStyle007" u →
       ¬ substring_of "PolyStyle0012" u →
       ¬ substring_of "PolyStyle00159" u →
       style feature = default_style)
  ∧ (styleUrl_of feature = None → style feature = default_style)
  ∧ color default_style ≠ fillColor default_style.
Proof.
  unfold style. destruct (styleUrl_of feature) as [u|]; repeat split;
    try discriminate; try done;
    intros ? [= <-]; destruct u as [|c u];
    repeat
      match goal with
      | |- substring_of _ _ → _ =>
          let H := fresh in intros H; apply includes_spec in H
      | |- ¬ substring_of _ _ → _ =>
          let H := fresh in intros H; apply includes_false in H
      end;
    try discriminate;
    repeat match goal with H : JS.includes _ _ = _ |- _ => rewrite H end;
    reflexivity.
Qed.

Lemma style_resolution_witness :
  style (Some Stub.styled) = style_PolyStyle0012.
Proof.
  refine (proj1 (proj2 (style_resolution (Some Stub.styled)))
            "#PolyStyle0012" eq_refl _ _).
  - apply includes_false. reflexivity.
  - by exists "#", EmptyString.
Defined.

(** C9, as stated, fails: a reference that contains [PolyStyle0012] does
    not resolve to that token's tuple when it also contains
    [PolyStyle007], which is tried first. *)
Lemma style_resolution_counterexample :
  let u := "#PolyStyle0012-PolyStyle007" in
  let feature := Some {| geometry := None;
                         properties :=
                           Some {| name := None; description := None;
                                   styleUrl := Some u |} |} in
  substring_of "PolyStyle0012" u
  ∧ style feature ≠ style_PolyStyle0012
  ∧ style feature = style_PolyStyle007.
Proof.
  repeat split.
  - by exists "#", "-PolyStyle007".
  - by vm_compute.
Qed.

End BoundaryStyle.

(** ** The proxy *)
Section ProxyEndpoint.
Import Proxy.

Lemma startsWith_empty (p : string) :
  p ≠ EmptyString → JS.startsWith EmptyString p = false.
Proof. by destruct p. Qed.

(** What [NextResponse.json] does with a status. *)
Lemma NextResponse_json_carries (error : string) (st : nat) :
  200 ≤ st ≤ 599 → null_body_status st = false →
  NextResponse_json error st
  = JS.Return {| status := st; content_type := "application/json";
                 body := Json_error error |}.
Proof.
  intros [Hlo Hhi] Hnull. unfold NextResponse_json. rewrite Hnull.
  replace (st <? 200) with false by (symmetry; apply Nat.ltb_ge; lia).
  by replace (599 <? st) with false by (symmetry; apply Nat.ltb_ge; lia).
Qed.

Lemma NextResponse_json_throws (error : string) (st : nat) :
  st < 200 ∨ 599 < st ∨ null_body_status st = true →
  ∃ e, NextResponse_json error st = JS.Throw e.
Proof.
  intros Hst. unfold NextResponse_json.
  destruct ((st <? 200) || (599 <? st)) eqn:Hrange; [by eexists |].
  apply orb_false_elim in Hrange as [Hlo Hhi].
  apply Nat.ltb_ge in Hlo, Hhi.
  destruct Hst as [?|[?| ->]]; [lia | lia | by eexists].
Qed.

Lemma NextResponse_json_cases (error : string) (st : nat) :
  NextResponse_json error st
  = JS.Return {| status := st; content_type := "application/json";
                 body := Json_error error |}
  ∨ ∃ e, NextResponse_json error st = JS.Throw e.
Proof.
  unfold NextResponse_json.
  destruct ((st <? 200) || (599 <? st)); [right; by eexists |].
  destruct (null_body_status st); [right; by eexists | by left].
Qed.

Lemma null_body_status_304 (st : nat) :
  300 ≤ st → null_body_status st = true ↔ st = 304.
Proof.
  intros Hst. unfold null_body_status. split.
  - intros Hn. repeat apply orb_prop in Hn as [Hn|Hn];
      apply Nat.eqb_eq in Hn; lia.
  - by intros ->.
Qed.

Lemma json_invalid_url :
  NextResponse_json "URL inválida ou não permitida." 400
  = JS.Return invalid_url.
Proof. reflexivity. Qed.

Lemma json_internal_error :
  NextResponse_json "Erro interno do servidor ao buscar dados do INPE." 500
  = JS.Return internal_error.
Proof. reflexivity. Qed.

(** The request passed the allow-list: what is left of [GET]. *)
Lemma GET_allowed (c : ascii) (u : string)
    (fetch : string → JS.Exc JS.Response) :
  JS.startsWith (String c u) allowed_prefix = true →
  GET (Some (String c u)) fetch
  = JS.try_catch
      (let* response := fetch (String c u) in
       if negb (JS.ok response) then
         NextResponse_json
           ("Falha ao buscar dados do INPE: " +:+ JS.statusText response)
           (JS.status response)
       else
         let contentType := JS.or_else (JS.content_type response) kml_mime in
         let* data := JS.text response in
         JS.Return {| status := 200; content_type := contentType;
                      body := Text data |})
      (λ error, JS.Return internal_error).
Proof. intros Hu. unfold GET. by rewrite Hu, json_internal_error. Qed.

Lemma GET_refused (url : option string)
    (fetch : string → JS.Exc JS.Response) :
  (∀ u, url = Some u → JS.startsWith u allowed_prefix = false) →
  GET url fetch = JS.Return invalid_url.
Proof.
  intros Hu. destruct url as [[|c u]|]; try done.
  unfold GET. by rewrite (Hu _ eq_refl).
Qed.

(** An upstream answer without a success status. *)
Lemma GET_upstream_failure (c : ascii) (u : string)
    (fetch : string → JS.Exc JS.Response) (resp : JS.Response) :
  JS.startsWith (String c u) allowed_prefix = true →
  fetch (String c u) = JS.Return resp → JS.ok resp = false →
  GET (Some (String c u)) fetch
  = JS.try_catch
      (NextResponse_json
         ("Falha ao buscar dados do INPE: " +:+ JS.statusText resp)
         (JS.status resp))
      (λ error, JS.Return internal_error).
Proof.
  intros Hu Hf Hok. rewrite GET_allowed by done. rewrite Hf.
  cbn [JS.bind]. by rewrite Hok.
Qed.

Lemma not_ok (resp : JS.Response) :
  JS.status resp < 200 ∨ 299 < JS.status resp → JS.ok resp = false.
Proof.
  intros Hst. unfold JS.ok. apply andb_false_iff.
  destruct Hst; [left | right]; apply Nat.leb_gt; lia.
Qed.

(** C7, as amended.  The proxy always answers.  A missing, empty or
    disallowed [url] gives 400.  An upstream answer with a status from 300
    to 599 other than 304 is answered with that status.  Any other
    non-success status of the upstream (below 200, above 599, or 304) is
    one that [NextResponse.json] refuses, and the answer is 500 with the
    generic message.  An upstream success is answered with status 200
    (whatever the upstream 2xx status was), the upstream text, and the
    upstream content type, or the KML type when the upstream names none.
    A failure of the upstream fetch, or of reading its text, gives 500 with
    the generic message. *)
Theorem proxy_responses (url : option string)
    (fetch : string → JS.Exc JS.Response) :
  (∃ r, GET url fetch = JS.Return r)
  ∧ (url = None → GET url fetch = JS.Return invalid_url)
  ∧ (∀ u, url = Some u → JS.startsWith u allowed_prefix = false →
       GET url fetch = JS.Return invalid_url)
  ∧ (∀ u resp, url = Some u → JS.startsWith u allowed_prefix = true →
       fetch u = JS.Return resp →
       300 ≤ JS.status resp ≤ 599 → JS.status resp ≠ 304 →
       GET url fetch
       = JS.Return {| status := JS.status resp;
                      content_type := "application/json";
                      body := Json_error ("Falha ao buscar dados do INPE: "
                                            +:+ JS.statusText resp) |})
  ∧ (∀ u resp, url = Some u → JS.startsWith u allowed_prefix = true →
       fetch u = JS.Return resp →
       JS.status resp < 200 ∨ 599 < JS.status resp ∨ JS.status resp = 304 →
       GET url fetch = JS.Return internal_error)
  ∧ (∀ u resp data, url = Some u → JS.startsWith u allowed_prefix = true →
       fetch u = JS.Return resp → JS.ok resp = true →
       JS.text resp = JS.Return data →
       GET url fetch
       = JS.Return {| status := 200;
                      content_type :=
                        JS.or_else (JS.content_type resp) kml_mime;
                      body := Text data |})
  ∧ (∀ u e, url = Some u → JS.startsWith u allowed_prefix = true →
       fetch u = JS.Throw e → GET url fetch = JS.Return internal_error)
  ∧ (∀ u resp e, url = Some u → JS.startsWith u allowed_prefix = true →
       fetch u = JS.Return resp → JS.ok resp = true →
       JS.text resp = JS.Throw e →
       GET url fetch = JS.Return internal_error)
  ∧ status invalid_url = 400
  ∧ status internal_error = 500
  ∧ body internal_error
    = Json_error "Erro interno do servidor ao buscar dados do INPE.".
Proof.
  split.
  { destruct url as [[|c u]|]; try (by eexists).
    destruct (JS.startsWith (String c u) allowed_prefix) eqn:Hu.
    2: { rewrite GET_refused; [by eexists | by intros ? [= <-]]. }
    rewrite GET_allowed by done.
    destruct (fetch _) as [resp|]; cbn [JS.bind JS.try_catch]; [|by eexists].
    destruct (JS.ok resp); cbn [negb].
    - destruct (JS.text resp); cbn [JS.bind JS.try_catch]; by eexists.
    - destruct (NextResponse_json_cases
                  ("Falha ao buscar dados do INPE: " +:+ JS.statusText resp)
                  (JS.status resp)) as [->|[e ->]]; by eexists. }
  split; [by intros -> |].
  split.
  { intros u -> Hu. apply GET_refused. by intros ? [= <-]. }
  split.
  { intros u resp -> Hu Hf Hst H304. destruct u as [|c u]; [done |].
    rewrite (GET_upstream_failure _ _ _ resp) by (try done; apply not_ok; lia).
    rewrite NextResponse_json_carries; [done | lia |].
    destruct (null_body_status (JS.status resp)) eqn:Hn; [|done].
    apply null_body_status_304 in Hn; [done | lia]. }
  split.
  { intros u resp -> Hu Hf Hst. destruct u as [|c u]; [done |].
    rewrite (GET_upstream_failure _ _ _ resp);
      [|done | done | apply not_ok; lia].
    destruct (NextResponse_json_throws
                ("Falha ao buscar dados do INPE: " +:+ JS.statusText resp)
                (JS.status resp)) as [e ->]; [|done].
    destruct Hst as [?|[?| ->]]; [by left | by right; left | by right; right]. }
  split.
  { intros u resp data -> Hu Hf Hok Ht. destruct u as [|c u]; [done |].
    rewrite GET_allowed by done. rewrite Hf. cbn [JS.bind].
    rewrite Hok. cbn [negb]. by rewrite Ht. }
  split.
  { intros u e -> Hu Hf. destruct u as [|c u]; [done |].
    rewrite GET_allowed by done. by rewrite Hf. }
  split; [|done].
  intros u resp e -> Hu Hf Hok Ht. destruct u as [|c u]; [done |].
  rewrite GET_allowed by done. rewrite Hf. cbn [JS.bind].
  rewrite Hok. cbn [negb]. by rewrite Ht.
Qed.

Lemma proxy_responses_witness :
  GET (Some "https://example.org/focos.kml") Stub.all_fail
  = JS.Return invalid_url.
Proof.
  refine (proj1 (proj2 (proj2
            (proxy_responses (Some "https://example.org/focos.kml")
               Stub.all_fail))) _ eq_refl _).
  reflexivity.
Defined.

(** C7, as stated, fails.  An upstream success with status 206 and no
    content type is answered with status 200 and the KML content type: the
    upstream status and content type are not relayed.  And an upstream
    answer with the non-success status 304 is answered with 500, not with
    that status. *)
Lemma proxy_responses_counterexample :
  let upstream :=
    {| JS.status := 206; JS.statusText := "Partial Content";
       JS.content_type := None; JS.text := JS.Return "<kml/>" |} in
  let not_modified :=
    {| JS.status := 304; JS.statusText := "Not Modified";
       JS.content_type := None; JS.text := JS.Return EmptyString |} in
  (JS.ok upstream = true
   ∧ ∃ r, GET (Some "https://dataserver-coids.inpe.br/focos.kml")
            (λ _, JS.Return upstream) = JS.Return r
          ∧ status r ≠ JS.status upstream
          ∧ Some (content_type r) ≠ JS.content_type upstream)
  ∧ (JS.ok not_modified = false
     ∧ ∃ r, GET (Some "https://dataserver-coids.inpe.br/focos.kml")
              (λ _, JS.Return not_modified) = JS.Return r
            ∧ status r = 500
            ∧ status r ≠ JS.status not_modified).
Proof.
  split.
  - split; [reflexivity |]. eexists. split; [reflexivity |].
    split; by vm_compute.
  - split; [reflexivity |]. eexists. split; [reflexivity |].
    split; by vm_compute.
Qed.

End ProxyEndpoint.

(** ** The per-source pipeline *)
Section PipelineProperties.
Context `{KmlLibraries}.
Import GeoJSON Leaflet Fire Spec.

Lemma try_catch_returns {A} (m : JS.Exc A) (h : string → JS.Exc A) :
  (∀ e, ∃ r, h e = JS.Return r) → ∃ r, JS.try_catch m h = JS.Return r.
Proof. intros Hh. destruct m as [a|e]; simpl; eauto. Qed.

(** [processKMLText] catches whatever its body throws. *)
Lemma processKMLText_returns (kmlText sourceUrl : string) :
  ∃ r, processKMLText kmlText sourceUrl = JS.Return r.
Proof. apply try_catch_returns. eauto. Qed.

(** So does [fetchAndProcessFireKML]: it resolves, to a layer or to
    [null]. *)
Lemma fetchAndProcessFireKML_returns (fetch : string → JS.Exc JS.Response)
    (inpeUrl : string) :
  ∃ r, fetchAndProcessFireKML fetch inpeUrl = JS.Return r.
Proof. apply try_catch_returns. eauto. Qed.

(** The text of a source was fetched: the result is that of
    [processKMLText]. *)
Lemma fetchAndProcessFireKML_fetched (fetch : string → JS.Exc JS.Response)
    (inpeUrl : string) (resp : JS.Response) (t : string) :
  fetch ("/api/inpe-kml?url=" +:+ encodeURIComponent inpeUrl)
    = JS.Return resp →
  JS.ok resp = true → JS.text resp = JS.Return t →
  fetchAndProcessFireKML fetch inpeUrl = processKMLText t inpeUrl.
Proof.
  intros Hf Hok Ht. unfold fetchAndProcessFireKML. rewrite Hf. simpl.
  rewrite Hok, Ht. simpl.
  by destruct (processKMLText_returns t inpeUrl) as [r ->].
Qed.

Lemma source_fails_null (fetch : string → JS.Exc JS.Response)
    (inpeUrl : string) :
  source_fails fetch inpeUrl →
  fetchAndProcessFireKML fetch inpeUrl = JS.Return None.
Proof.
  intros [e Hf | resp Hf Hok | resp t Hf Hok Ht Hp].
  - unfold fetchAndProcessFireKML. by rewrite Hf.
  - unfold fetchAndProcessFireKML. rewrite Hf. simpl. by rewrite Hok.
  - rewrite (fetchAndProcessFireKML_fetched _ _ _ _ Hf Hok Ht).
    unfold processKMLText.
    destruct Hp as [[e ->] | [(d & -> & Hd) | (d & e & -> & Hk)]].
    + done.
    + simpl. by destruct (parsererrors d).
    + simpl. destruct (parsererrors d); [|done]. by rewrite Hk.
Qed.

Lemma geoJSON_markers_annotated (fs : list Feature) (ms : list Marker) :
  Forall point_geometry fs →
  geoJSON_markers fs = JS.Return ms → Forall2 annotated fs ms.
Proof.
  intros Hfs. revert ms. induction Hfs as [|f fs Hf _ IH]; intros ms; simpl.
  - intros [= <-]. constructor.
  - destruct Hf as (g & Hg & Hp). rewrite Hg, Hp. simpl.
    destruct (coordsToLatLng (coordinates g)) as [ll|] eqn:Ell; [|done].
    simpl. destruct (geoJSON_markers fs) as [ms'|]; [|done]. simpl.
    intros [= <-]. constructor; [|by apply IH].
    exists g. by rewrite Ell.
Qed.

Lemma source_succeeds_layer (fetch : string → JS.Exc JS.Response)
    (inpeUrl : string) (fs : list Feature) (ms : list Marker) :
  source_succeeds fetch inpeUrl fs →
  geoJSON_markers fs = JS.Return ms →
  fetchAndProcessFireKML fetch inpeUrl = JS.Return (Some ms)
  ∧ Forall2 annotated fs ms.
Proof.
  intros (resp & t & d & geojson & Hf & Hok & Ht & Hd & He & Hk & ->) Hms.
  split.
  - rewrite (fetchAndProcessFireKML_fetched _ _ _ _ Hf Hok Ht).
    unfold processKMLText. rewrite Hd. cbn [JS.bind]. rewrite He, Hk.
    cbn [JS.bind].
    destruct (features (pointFeatureCollection geojson)) as [|pf pfs].
    + by injection Hms as <-.
    + by rewrite Hms.
  - apply geoJSON_markers_annotated; [|done].
    apply pointFeatures_all_points.
Qed.

(** A document without point features gives the empty layer, which is a
    result and not [null]. *)
Lemma source_succeeds_empty (fetch : string → JS.Exc JS.Response)
    (inpeUrl : string) :
  source_succeeds fetch inpeUrl [] →
  fetchAndProcessFireKML fetch inpeUrl = JS.Return (Some []).
Proof. intros Hs. by apply (source_succeeds_layer _ _ [] []). Qed.

Lemma Promise_all_returns {A} (ps : list (JS.Exc A)) :
  Forall (λ p, ∃ a, p = JS.Return a) ps →
  ∃ rs, JS.Promise_all ps = JS.Return rs
        ∧ Forall2 (λ p r, p = JS.Return r) ps rs.
Proof.
  induction 1 as [|p ps [a ->] _ (rs & IH & IH2)]; simpl.
  - exists []. by split.
  - rewrite IH. simpl. exists (a :: rs). split; [done | by constructor].
Qed.

(** All fetches settle: [Promise.all] gives one result per source. *)
Lemma all_settled (fetch : string → JS.Exc JS.Response) :
  ∃ results,
    JS.Promise_all (map (fetchAndProcessFireKML fetch) inpeUrls)
      = JS.Return results
    ∧ Forall2 (λ url r, fetchAndProcessFireKML fetch url = JS.Return r)
        inpeUrls results.
Proof.
  destruct (Promise_all_returns
              (map (fetchAndProcessFireKML fetch) inpeUrls))
    as (rs & Hrs & H2).
  - apply Forall_map, Forall_forall. intros url _.
    apply fetchAndProcessFireKML_returns.
  - exists rs. split; [done |].
    by apply Forall2_fmap_l in H2.
Qed.

End PipelineProperties.

(** ** The swap *)
Section Swap.
Import GeoJSON Leaflet Fire Spec.

Lemma create_layers_frame (results : list (option (list Marker)))
    (c c1 : Component) (ids : list (option nat)) :
  create_layers results c = (ids, c1) →
  lastId c ≤ lastId c1
  ∧ mapRef c1 = mapRef c
  ∧ layersControlRef c1 = layersControlRef c
  ∧ fireDataLayers c1 = fireDataLayers c
  ∧ (∀ i, i ≤ lastId c → objects c1 !! i = objects c !! i)
  ∧ (∀ i, is_Some (objects c1 !! i) →
          is_Some (objects c !! i) ∨ lastId c < i ≤ lastId c1)
  ∧ Forall (λ i, lastId c < i ≤ lastId c1) (non_null ids).
Proof.
  revert c c1 ids. induction results as [|[ms|] rs IH]; intros c c1 ids; simpl.
  - intros [= <- <-]. by repeat split; auto.
  - destruct (create_layers rs _) as [ids' c'] eqn:E. intros [= <- <-].
    apply IH in E as (Hl & Hm & Hc & Hf & Ho & Hn & Hids). simpl in *.
    repeat split; auto; try lia.
    + intros i Hi. rewrite Ho by lia. apply lookup_insert_ne. lia.
    + intros i Hi. destruct (Hn i Hi) as [Hs|]; [|right; lia].
      destruct (decide (i = S (lastId c))) as [->|Hne]; [right; lia |].
      left. by rewrite lookup_insert_ne in Hs.
    + unfold non_null in *. simpl. constructor; [lia |].
      eapply Forall_impl; [done |]. simpl. lia.
  - destruct (create_layers rs c) as [ids' c'] eqn:E. intros [= <- <-].
    apply IH in E as (Hl & Hm & Hc & Hf & Ho & Hn & Hids).
    repeat split; auto.
Qed.

(** The layers made of the results carry the markers of the non-null
    results, in order. *)
Lemma create_layers_markers (results : list (option (list Marker)))
    (c c1 c' : Component) (ids : list (option nat)) :
  create_layers results c = (ids, c1) →
  (∀ i, lastId c < i ≤ lastId c1 → objects c' !! i = objects c1 !! i) →
  concat (map (markers_of c') (non_null ids)) = concat (omap id results).
Proof.
  revert c c1 ids. induction results as [|[ms|] rs IH]; intros c c1 ids; simpl.
  - by intros [= <- <-].
  - destruct (create_layers rs _) as [ids' c2] eqn:E. intros [= <- <-] Hc'.
    pose proof (create_layers_frame _ _ _ _ E) as (Hl & _ & _ & _ & Ho & _).
    simpl in *. unfold non_null. simpl. f_equal.
    + unfold markers_of. rewrite Hc' by lia. rewrite Ho by lia.
      by rewrite lookup_insert_eq.
    + eapply IH; [done |]. simpl. intros i Hi. apply Hc'. lia.
  - destruct (create_layers rs c) as [ids' c2] eqn:E. intros [= <- <-] Hc'.
    unfold non_null. simpl. by eapply IH.
Qed.

Lemma create_layers_length (results : list (option (list Marker)))
    (c c1 : Component) (ids : list (option nat)) :
  create_layers results c = (ids, c1) →
  length (non_null ids) = length (omap id results).
Proof.
  revert c c1 ids. induction results as [|[ms|] rs IH]; intros c c1 ids; simpl.
  - by intros [= <- <-].
  - destruct (create_layers rs _) as [ids' c2] eqn:E. intros [= <- <-].
    unfold non_null. simpl. f_equal. by eapply IH.
  - destruct (create_layers rs c) as [ids' c2] eqn:E. intros [= <- <-].
    unfold non_null. simpl. by eapply IH.
Qed.

(** The removal loop touches the map and the control only. *)
Lemma remove_old_frame (old : list nat) (c : Component) :
  lastId (foldl remove_old c old) = lastId c
  ∧ objects (foldl remove_old c old) = objects c
  ∧ fireDataLayers (foldl remove_old c old) = fireDataLayers c
  ∧ mapRef (foldl remove_old c old)
    = removed_from_map (objects c) old <$> mapRef c
  ∧ layersControlRef (foldl remove_old c old)
    = removed_from_control old <$> layersControlRef c.
Proof.
  revert c. induction old as [|i old IH]; intros c; simpl.
  - repeat split; [by destruct (mapRef c) | by destruct (layersControlRef c)].
  - destruct (IH (remove_old c i)) as (-> & -> & -> & -> & ->). simpl.
    repeat split; [by destruct (mapRef c) | by destruct (layersControlRef c)].
Qed.

(** The state after the swap, field by field. *)
Lemma swap_fields (old : list nat) (results : list (option (list Marker)))
    (c : Component) :
  ∃ ids c1,
    create_layers results c = (ids, c1)
    ∧ lastId (swap old results c) = S (lastId c1)
    ∧ objects (swap old results c)
      = <[S (lastId c1) := LayerGroup (non_null ids)]> (objects c1)
    ∧ fireDataLayers (swap old results c) = non_null ids
    ∧ mapRef (swap old results c)
      = (λ m, addLayer (objects (swap old results c)) (S (lastId c1))
                (removed_from_map (objects c1) old m)) <$> mapRef c
    ∧ layersControlRef (swap old results c)
      = (λ es, control_addOverlay (S (lastId c1)) hotspot_overlay_name
                 (removed_from_control old es)) <$> layersControlRef c.
Proof.
  unfold swap. destruct (create_layers results c) as [ids c1] eqn:E.
  exists ids, c1. split; [done |].
  pose proof (create_layers_frame _ _ _ _ E) as (_ & Hm & Hc & _).
  destruct (remove_old_frame old c1) as (Hl & Ho & _ & Hm2 & Hc2).
  simpl. rewrite Hl, Ho, Hm2, Hc2, Hm, Hc.
  repeat split; [by destruct (mapRef c) | by destruct (layersControlRef c)].
Qed.

End Swap.

(** ** The reconciler *)
Section ReconcilerProperties.
Context `{KmlLibraries}.
Import GeoJSON Leaflet Fire Spec.

Lemma inpeUrls_NoDup : NoDup inpeUrls.
Proof. by apply (bool_decide_unpack _); vm_compute. Qed.

(** [updateFireData] on a mounted component: every fetch settles and the
    swap runs on the results. *)
Lemma updateFireData_swap (old : list nat)
    (fetch : string → JS.Exc JS.Response) (c : Component) :
  is_Some (mapRef c) →
  ∃ results,
    Forall2 (λ url r, fetchAndProcessFireKML fetch url = JS.Return r)
      inpeUrls results
    ∧ updateFireData old fetch c = JS.Return (swap old results c).
Proof.
  intros [m Hm]. destruct (all_settled fetch) as (results & Hall & H2).
  exists results. split; [done |].
  unfold updateFireData. by rewrite Hm, Hall.
Qed.

(** No exception escapes the reconciler. *)
Lemma updateFireData_returns (old : list nat)
    (fetch : string → JS.Exc JS.Response) (c : Component) :
  ∃ c', updateFireData old fetch c = JS.Return c'.
Proof.
  destruct (mapRef c) as [m|] eqn:Hm.
  - destruct (updateFireData_swap old fetch c) as (rs & _ & ->); eauto.
  - unfold updateFireData. rewrite Hm. eauto.
Qed.

Lemma last_filter_snoc {A} (P : A → bool) (l : list A) (x : A) :
  P x = true → last (List.filter P (l ++ [x])) = Some x.
Proof.
  intros Hx. rewrite List.filter_app. simpl. rewrite Hx.
  apply last_snoc.
Qed.

(** The overlay registered by the swap holds the markers of the non-null
    results and nothing else. *)
Lemma swap_aggregate (old : list nat)
    (results : list (option (list Marker))) (c : Component) :
  is_Some (layersControlRef c) →
  aggregate (swap old results c) = concat (omap id results).
Proof.
  intros [es Hes].
  destruct (swap_fields old results c)
    as (ids & c1 & E & Hl & Ho & Hf & Hm & Hc).
  unfold aggregate, hotspot_entries. rewrite Hc, Hes. simpl.
  unfold control_addOverlay. rewrite last_filter_snoc by done. simpl.
  rewrite Ho, lookup_insert_eq.
  eapply create_layers_markers; [done |].
  intros i Hi. rewrite Ho. apply lookup_insert_ne. lia.
Qed.

(** One source has a layer, every other gives [null]: the results hold
    that layer alone. *)
Lemma only_source {A} (f : string → JS.Exc (option (list A)))
    (urls : list string) (results : list (option (list A)))
    (a : string) (ms : list A) :
  NoDup urls → a ∈ urls →
  Forall2 (λ url r, f url = JS.Return r) urls results →
  f a = JS.Return (Some ms) →
  (∀ b, b ∈ urls → b ≠ a → f b = JS.Return None) →
  concat (omap id results) = ms.
Proof.
  intros Hnd Ha H2 Hfa Hothers.
  assert (∀ urls results,
            Forall2 (λ url r, f url = JS.Return r) urls results →
            (∀ b, b ∈ urls → f b = JS.Return None) →
            concat (omap id results) = []) as Hnone.
  { clear. induction 1 as [|u r us rs Hu _ IH]; intros Hn; [done |].
    rewrite (Hn u) in Hu by left. injection Hu as <-.
    change (concat (omap id (None :: rs))) with (concat (omap id rs)).
    apply IH. intros b Hb. apply Hn. by right. }
  revert Hnd Ha Hothers.
  induction H2 as [|u r us rs Hu Hrest IH]; intros Hnd Ha Hothers.
  - by apply elem_of_nil in Ha.
  - apply NoDup_cons in Hnd as [Hu_notin Hnd].
    apply elem_of_cons in Ha as [<-|Ha].
    + rewrite Hfa in Hu. injection Hu as <-.
      change (concat (omap id (Some ms :: rs)))
        with (ms ++ concat (omap id rs)).
      rewrite (Hnone us rs Hrest); [by rewrite app_nil_r |].
      intros b Hb. apply Hothers; [by right | by intros ->].
    + rewrite (Hothers u) in Hu; [| by left | by intros ->].
      injection Hu as <-.
      change (concat (omap id (None :: rs))) with (concat (omap id rs)).
      apply IH; [done | done |].
      intros b Hb. apply Hothers. by right.
Qed.

(** C3.  A cycle never throws.  Each source that fails (network error,
    non-success status, parse error) gives [null] and each that succeeds
    gives the markers of its annotated point features; the overlay the
    cycle registers holds the markers of the sources that succeeded and
    nothing else.  With one source [a] succeeding and the others failing,
    the aggregate is exactly the annotated records of [a]. *)
Theorem fail_soft_aggregation (old : list nat)
    (fetch : string → JS.Exc JS.Response) (c : Component) :
  is_Some (mapRef c) → is_Some (layersControlRef c) →
  ∃ results c',
    updateFireData old fetch c = JS.Return c'
    ∧ Forall2 (λ url r, fetchAndProcessFireKML fetch url = JS.Return r)
        inpeUrls results
    ∧ aggregate c' = concat (omap id results)
    ∧ (∀ b, source_fails fetch b →
            fetchAndProcessFireKML fetch b = JS.Return None)
    ∧ (∀ a fs ms,
          a ∈ inpeUrls →
          source_succeeds fetch a fs → geoJSON_markers fs = JS.Return ms →
          (∀ b, b ∈ inpeUrls → b ≠ a → source_fails fetch b) →
          aggregate c' = ms ∧ Forall2 annotated fs ms).
Proof.
  intros Hm Hc.
  destruct (updateFireData_swap old fetch c Hm) as (results & H2 & Hu).
  exists results, (swap old results c).
  split; [done |]. split; [done |].
  split; [by apply swap_aggregate |].
  split; [apply source_fails_null |].
  intros a fs ms Ha Hs Hms Hothers.
  destruct (source_succeeds_layer _ _ _ _ Hs Hms) as [Hfa Hann].
  split; [|done]. rewrite swap_aggregate by done.
  eapply (only_source (fetchAndProcessFireKML fetch) inpeUrls);
    eauto using inpeUrls_NoDup.
  intros b Hb Hne. by apply source_fails_null, Hothers.
Qed.

End ReconcilerProperties.

Lemma fail_soft_aggregation_witness :
  ∃ results c',
    @Fire.updateFireData Stub.libraries [] (Stub.first_answers "hotspot")
      Stub.mounted = JS.Return c'
    ∧ Forall2
        (λ url r,
           @Fire.fetchAndProcessFireKML Stub.libraries
             (Stub.first_answers "hotspot") url = JS.Return r)
        Fire.inpeUrls results
    ∧ Spec.aggregate c' = concat (omap id results).
Proof.
  destruct (@fail_soft_aggregation Stub.libraries []
              (Stub.first_answers "hotspot") Stub.mounted)
    as (results & c' & Hu & H2 & Ha & _).
  - by eexists.
  - by eexists.
  - by exists results, c'.
Defined.

(** One source succeeds, three fail: the aggregate is the marker of the
    first source. *)
Example one_source_of_four :
  ∃ c', @Fire.updateFireData Stub.libraries [] (Stub.first_answers "hotspot")
          Stub.mounted = JS.Return c'
        ∧ Spec.aggregate c' = [Stub.hotspot_marker]
        ∧ Fire.markers_on_map c' = [Stub.hotspot_marker].
Proof. eexists. split; [reflexivity |]. by vm_compute. Qed.

(** ** What the swap does to the layers on display *)
Section Display.
Import GeoJSON Leaflet Fire Spec.

Lemma removeLayer_GeoJSON (objs : gmap nat Layer) (i : nat)
    (m : gset nat) (ms : list Marker) :
  objs !! i = Some (GeoJSON ms) → removeLayer objs i m = m ∖ {[i]}.
Proof.
  intros Hi. unfold removeLayer. rewrite Hi.
  case_bool_decide; [done | set_solver].
Qed.

Lemma removed_from_map_GeoJSON (c : Component) (old : list nat)
    (m : gset nat) :
  Forall (is_GeoJSON c) old →
  removed_from_map (objects c) old m = m ∖ list_to_set old.
Proof.
  unfold removed_from_map. intros Hold. revert m.
  induction Hold as [|i old [ms Hi] _ IH]; intros m; simpl.
  - set_solver.
  - rewrite IH, (removeLayer_GeoJSON _ _ _ _ Hi). set_solver.
Qed.

Lemma removed_from_map_ext (o1 o2 : gmap nat Layer) (old : list nat)
    (m : gset nat) :
  Forall (λ i, o1 !! i = o2 !! i) old →
  removed_from_map o1 old m = removed_from_map o2 old m.
Proof.
  unfold removed_from_map. intros Hold. revert m.
  induction Hold as [|i old Hi _ IH]; intros m; simpl; [done |].
  rewrite IH. unfold removeLayer. by rewrite Hi.
Qed.

Lemma elem_of_addLayer (objs : gmap nat Layer) (g i : nat) (m : gset nat) :
  i ≠ g →
  (∀ ls, objs !! g = Some (LayerGroup ls) → i ∉ ls) →
  i ∈ addLayer objs g m ↔ i ∈ m.
Proof.
  intros Hne Hls. unfold addLayer. case_bool_decide; [done |].
  destruct (objs !! g) as [[u|ms|ls]|] eqn:E;
    try specialize (Hls _ eq_refl); set_solver.
Qed.

(** A layer made before the cycle is on the map after the swap exactly
    when the removal loop left it there. *)
Lemma swap_old_layer (old : list nat)
    (results : list (option (list Marker))) (c : Component) (m : gset nat)
    (i : nat) :
  mapRef c = Some m → Forall (λ j, j ≤ lastId c) old → i ≤ lastId c →
  layer_on_map (swap old results c) i
  = bool_decide (i ∈ removed_from_map (objects c) old m).
Proof.
  intros Hm Hold Hi.
  destruct (swap_fields old results c)
    as (ids & c1 & E & Hl & Ho & Hf & Hm' & Hc).
  pose proof (create_layers_frame _ _ _ _ E)
    as (Hle & _ & _ & _ & Hobj & _ & Hids).
  unfold layer_on_map. rewrite Hm', Hm. simpl.
  apply bool_decide_ext.
  rewrite elem_of_addLayer.
  - rewrite (removed_from_map_ext (objects c1) (objects c)); [done |].
    eapply Forall_impl; [done |]. simpl. intros j Hj. by apply Hobj.
  - lia.
  - rewrite Ho, lookup_insert_eq. intros ls [= <-] Hin.
    rewrite Forall_forall in Hids. apply Hids in Hin. lia.
Qed.

Lemma swap_old_markers (old : list nat)
    (results : list (option (list Marker))) (c : Component) (i : nat) :
  i ≤ lastId c → markers_of (swap old results c) i = markers_of c i.
Proof.
  intros Hi.
  destruct (swap_fields old results c)
    as (ids & c1 & E & Hl & Ho & Hf & Hm' & Hc).
  pose proof (create_layers_frame _ _ _ _ E)
    as (Hle & _ & _ & _ & Hobj & _ & Hids).
  unfold markers_of. rewrite Ho, lookup_insert_ne by lia.
  by rewrite Hobj.
Qed.

End Display.

(** ** Stamps and objects across the swap *)
Section Stamps.
Import GeoJSON Leaflet Fire Spec Props.

Lemma swap_objects_old (old : list nat)
    (results : list (option (list Marker))) (c : Component) (i : nat) :
  i ≤ lastId c → objects (swap old results c) !! i = objects c !! i.
Proof.
  intros Hi.
  destruct (swap_fields old results c) as (ids & c1 & E & _ & Ho & _).
  pose proof (create_layers_frame _ _ _ _ E) as (Hle & _ & _ & _ & Hobj & _).
  rewrite Ho, lookup_insert_ne by lia. by apply Hobj.
Qed.

Lemma swap_well_formed (old : list nat)
    (results : list (option (list Marker))) (c : Component) :
  well_formed c → well_formed (swap old results c).
Proof.
  intros Hwf i Hi.
  destruct (swap_fields old results c) as (ids & c1 & E & Hl & Ho & _).
  pose proof (create_layers_frame _ _ _ _ E)
    as (Hle & _ & _ & _ & _ & Hnew & _).
  rewrite Hl. rewrite Ho in Hi.
  destruct (decide (i = S (lastId c1))) as [->|Hne]; [lia |].
  rewrite lookup_insert_ne in Hi by done.
  destruct (Hnew i Hi) as [Hold|?]; [|lia].
  apply Hwf in Hold. lia.
Qed.

Lemma init_map_well_formed (c : Component) :
  well_formed c → well_formed (View.init_map c).
Proof.
  intros Hwf i Hi. cbn in Hi |- *.
  destruct (decide (i = S (S (lastId c)))) as [->|H1]; [lia |].
  rewrite lookup_insert_ne in Hi by done.
  destruct (decide (i = S (lastId c))) as [->|H2]; [lia |].
  rewrite lookup_insert_ne in Hi by done.
  apply Hwf in Hi. lia.
Qed.

Lemma removed_from_map_subseteq (objs : gmap nat Layer) (old : list nat)
    (m : gset nat) :
  removed_from_map objs old m ⊆ m.
Proof.
  unfold removed_from_map. revert m.
  induction old as [|i old IH]; intros m; simpl; [done |].
  etrans; [apply IH |]. unfold removeLayer.
  case_bool_decide; [|done].
  destruct (objs !! i) as [[u|ms|ls]|]; set_solver.
Qed.

Lemma addLayer_group (objs : gmap nat Layer) (g : nat) (ls : list nat)
    (m : gset nat) :
  g ∉ m → objs !! g = Some (LayerGroup ls) →
  addLayer objs g m = list_to_set ls ∪ ({[g]} ∪ m).
Proof.
  intros Hg Hobj. unfold addLayer. rewrite Hobj.
  by rewrite bool_decide_eq_false_2.
Qed.

(** The map after the swap, when the stamps on the map are stamps handed
    out: the new layers, their group and what the removal loop left. *)
Lemma swap_map (old : list nat) (results : list (option (list Marker)))
    (c : Component) (m : gset nat) :
  map_well_formed c → mapRef c = Some m →
  Forall (λ j, j ≤ lastId c) old →
  mapRef (swap old results c)
  = Some (list_to_set (fireDataLayers (swap old results c))
            ∪ ({[lastId (swap old results c)]}
                 ∪ removed_from_map (objects c) old m)).
Proof.
  intros Hmwf Hm Hold.
  destruct (swap_fields old results c)
    as (ids & c1 & E & Hl & Ho & Hf & Hm' & _).
  pose proof (create_layers_frame _ _ _ _ E)
    as (Hle & _ & _ & _ & Hobj & _).
  rewrite Hm', Hm, Hl, Hf. simpl. f_equal.
  rewrite (removed_from_map_ext (objects c1) (objects c)).
  2: { eapply Forall_impl; [done |]. simpl. intros j Hj. by apply Hobj. }
  apply addLayer_group; [|by rewrite Ho, lookup_insert_eq].
  intros Hin. apply removed_from_map_subseteq in Hin.
  apply (Hmwf m) in Hin; [lia | done].
Qed.

Lemma swap_map_well_formed (old : list nat)
    (results : list (option (list Marker))) (c : Component) :
  map_well_formed c → Forall (λ j, j ≤ lastId c) old →
  map_well_formed (swap old results c).
Proof.
  intros Hmwf Hold m' i Hm' Hi.
  destruct (mapRef c) as [m|] eqn:Hm.
  - rewrite (swap_map _ _ _ m) in Hm' by done. injection Hm' as <-.
    destruct (swap_fields old results c)
      as (ids & c1 & E & Hl & _ & Hf & _).
    pose proof (create_layers_frame _ _ _ _ E)
      as (Hle & _ & _ & _ & _ & _ & Hids).
    rewrite Hl. rewrite Hl, Hf in Hi.
    apply elem_of_union in Hi as [Hi|Hi].
    + apply elem_of_list_to_set in Hi. rewrite Forall_forall in Hids.
      apply Hids in Hi. lia.
    + apply elem_of_union in Hi as [Hi|Hi].
      * apply elem_of_singleton in Hi. lia.
      * apply removed_from_map_subseteq in Hi.
        apply (Hmwf m) in Hi; [lia | done].
  - destruct (swap_fields old results c) as (? & ? & _ & _ & _ & _ & Hm2 & _).
    rewrite Hm in Hm2. rewrite Hm2 in Hm'. done.
Qed.

Lemma create_layers_GeoJSON (results : list (option (list Marker)))
    (c c1 : Component) (ids : list (option nat)) :
  create_layers results c = (ids, c1) →
  Forall (λ i, ∃ ms, objects c1 !! i = Some (GeoJSON ms)) (non_null ids).
Proof.
  revert c c1 ids. induction results as [|[ms|] rs IH]; intros c c1 ids; simpl.
  - intros [= <- <-]. constructor.
  - destruct (create_layers rs _) as [ids' c2] eqn:E. intros [= <- <-].
    pose proof (create_layers_frame _ _ _ _ E) as (_ & _ & _ & _ & Ho & _).
    unfold non_null. simpl. constructor; [|by eapply IH].
    exists ms. rewrite Ho by done. simpl. by rewrite lookup_insert_eq.
  - destruct (create_layers rs c) as [ids' c2] eqn:E. intros [= <- <-].
    unfold non_null. simpl. by eapply IH.
Qed.

Lemma swap_new_layers (old : list nat)
    (results : list (option (list Marker))) (c : Component) :
  Forall (is_GeoJSON (swap old results c))
    (fireDataLayers (swap old results c))
  ∧ Forall (λ i, lastId c < i < lastId (swap old results c))
      (fireDataLayers (swap old results c))
  ∧ concat (map (markers_of (swap old results c))
              (fireDataLayers (swap old results c)))
    = concat (omap id results)
  ∧ objects (swap old results c) !! lastId (swap old results c)
    = Some (LayerGroup (fireDataLayers (swap old results c))).
Proof.
  destruct (swap_fields old results c)
    as (ids & c1 & E & Hl & Ho & Hf & _).
  pose proof (create_layers_frame _ _ _ _ E)
    as (Hle & _ & _ & _ & _ & _ & Hids).
  pose proof (create_layers_GeoJSON _ _ _ _ E) as Hgeo.
  rewrite Hf, Hl. split; [|split; [|split]].
  - rewrite Forall_forall in Hids, Hgeo |- *. intros i Hi.
    destruct (Hgeo i Hi) as [ms Hms]. exists ms.
    rewrite Ho, lookup_insert_ne; [done |]. apply Hids in Hi. lia.
  - eapply Forall_impl; [exact Hids |]. simpl. intros x [? ?]. split; lia.
  - eapply create_layers_markers; [done |].
    intros i Hi. rewrite Ho. apply lookup_insert_ne. lia.
  - by rewrite Ho, lookup_insert_eq.
Qed.

Lemma well_formed_le (c : Component) (old : list nat) :
  well_formed c → Forall (is_GeoJSON c) old →
  Forall (λ j, j ≤ lastId c) old.
Proof.
  intros Hwf Hold. eapply Forall_impl; [exact Hold |].
  intros j [ms Hj]. apply Hwf. by eexists.
Qed.

Lemma elem_of_concat_map {A B} (f : A → list B) (l : list A) (y : B) :
  y ∈ concat (map f l) ↔ ∃ x, x ∈ l ∧ y ∈ f x.
Proof.
  rewrite list_elem_of_In, in_concat. split.
  - intros (ys & Hys & Hy). apply in_map_iff in Hys as (x & <- & Hx).
    exists x. by rewrite !list_elem_of_In.
  - intros (x & Hx & Hy). exists (f x). split.
    + apply in_map. by apply list_elem_of_In.
    + by apply list_elem_of_In.
Qed.

Lemma markers_of_GeoJSON (c : Component) (i : nat) (mk : Marker) :
  mk ∈ markers_of c i → is_GeoJSON c i.
Proof.
  unfold markers_of, is_GeoJSON.
  destruct (objects c !! i) as [[u|ms|ls]|]; try (by intros ?%elem_of_nil).
  eauto.
Qed.

End Stamps.

Section FirstCycle.
Import Leaflet Fire Spec.

Lemma well_formed_map_Forall (c : Component) :
  map_Forall (λ i _, i ≤ lastId c) (objects c) → well_formed c.
Proof. intros Hall i [l Hl]. by apply (Hall i l). Qed.

Lemma after_first_cycle_well_formed : well_formed Stub.after_first_cycle.
Proof.
  apply well_formed_map_Forall.
  by apply (bool_decide_unpack _); vm_compute.
Qed.

End FirstCycle.

Section EmptyAndFailed.
Context `{KmlLibraries}.
Import GeoJSON Leaflet Fire Spec.

(** C4, as amended.  A document without point features gives the empty
    layer, a failure gives [null]; the empty layer becomes a member of the
    new generation and [null] does not.  What the cycle removes does not
    depend on how the sources fared: whatever the network answers, a layer
    made before the cycle is on the map after it in the one case exactly
    when it is in the other, with the same markers. *)
Theorem empty_is_not_failure (old : list nat)
    (fetch fetch' : string → JS.Exc JS.Response) (c : Component)
    (m : gset nat) :
  mapRef c = Some m → Forall (λ j, j ≤ lastId c) old →
  (∀ url, source_succeeds fetch url [] →
          fetchAndProcessFireKML fetch url = JS.Return (Some []))
  ∧ (∀ url, source_fails fetch url →
            fetchAndProcessFireKML fetch url = JS.Return None)
  ∧ ∃ results c1 c2,
      updateFireData old fetch c = JS.Return c1
      ∧ updateFireData old fetch' c = JS.Return c2
      ∧ Forall2 (λ url r, fetchAndProcessFireKML fetch url = JS.Return r)
          inpeUrls results
      ∧ length (fireDataLayers c1) = length (omap id results)
      ∧ ∀ i, i ≤ lastId c →
             layer_on_map c1 i = layer_on_map c2 i
             ∧ markers_of c1 i = markers_of c2 i.
Proof.
  intros Hm Hold.
  split; [apply source_succeeds_empty |].
  split; [apply source_fails_null |].
  destruct (updateFireData_swap old fetch c) as (r1 & H1 & Hu1);
    [by eexists |].
  destruct (updateFireData_swap old fetch' c) as (r2 & H2 & Hu2);
    [by eexists |].
  exists r1, (swap old r1 c), (swap old r2 c).
  repeat split; try done.
  - destruct (swap_fields old r1 c) as (ids & c1 & E & _ & _ & -> & _).
    by eapply create_layers_length.
  - by rewrite !(swap_old_layer _ _ _ m).
  - by rewrite !swap_old_markers.
Qed.

End EmptyAndFailed.

Section EmptyAndFailedExamples.
Import Leaflet Fire Spec.

Lemma empty_is_not_failure_witness :
  ∃ c1 c2,
    @updateFireData Stub.libraries (fireDataLayers Stub.after_first_cycle)
      (Stub.first_answers "empty") Stub.after_first_cycle = JS.Return c1
    ∧ @updateFireData Stub.libraries (fireDataLayers Stub.after_first_cycle)
        Stub.all_fail Stub.after_first_cycle = JS.Return c2
    ∧ layer_on_map c1 3 = layer_on_map c2 3.
Proof.
  destruct (@empty_is_not_failure Stub.libraries
              (fireDataLayers Stub.after_first_cycle)
              (Stub.first_answers "empty") Stub.all_fail
              Stub.after_first_cycle {[1; 3; 4]})
    as (_ & _ & results & c1 & c2 & H1 & H2 & _ & _ & Hsame).
  - by vm_compute.
  - by repeat constructor.
  - exists c1, c2. repeat split; try done. apply Hsame. vm_compute. lia.
Defined.

(** C4, as stated, fails.  The first cycle put the marker of the first
    source on the map.  In the next cycle, run by the closure the interval
    holds (it saw [fireDataLayers] empty), an empty but successful answer
    of that source leaves its marker on display; run by a closure that
    sees the current generation, a failure of that source takes its marker
    off.  Either way the source's old marker fares the same after an empty
    answer and after a failure. *)
Lemma empty_is_not_failure_counterexample :
  @fetchAndProcessFireKML Stub.libraries (Stub.first_answers "empty")
    (hd "" inpeUrls) = JS.Return (Some [])
  ∧ @fetchAndProcessFireKML Stub.libraries Stub.all_fail
      (hd "" inpeUrls) = JS.Return None
  ∧ markers_on_map Stub.after_first_cycle = [Stub.hotspot_marker]
  ∧ (∃ c', @updateFireData Stub.libraries []
             (Stub.first_answers "empty") Stub.after_first_cycle
           = JS.Return c'
           ∧ markers_on_map c' = [Stub.hotspot_marker])
  ∧ (∃ c', @updateFireData Stub.libraries
             (fireDataLayers Stub.after_first_cycle)
             Stub.all_fail Stub.after_first_cycle
           = JS.Return c'
           ∧ markers_on_map c' = []).
Proof.
  split; [reflexivity |]. split; [reflexivity |].
  split; [by vm_compute |]. split.
  - eexists. split; [reflexivity |]. by vm_compute.
  - eexists. split; [reflexivity |]. by vm_compute.
Qed.

End EmptyAndFailedExamples.

(** ** The control across cycles *)
Section ControlEntries.
Import Leaflet Fire Spec.

Lemma control_removeLayer_absent (i : nat) (es : list ControlEntry) :
  Forall (λ e, layer e ≠ i) es → control_removeLayer i es = es.
Proof.
  induction 1 as [|e es He _ IH]; simpl; [done |].
  apply Nat.eqb_neq in He. by rewrite He, IH.
Qed.

Lemma removed_from_control_absent (old : list nat) (es : list ControlEntry) :
  Forall (λ i, Forall (λ e, layer e ≠ i) es) old →
  removed_from_control old es = es.
Proof.
  unfold removed_from_control.
  induction 1 as [|i old Hi _ IH]; simpl; [done |].
  by rewrite control_removeLayer_absent.
Qed.

(** The removal loop is given the layers of the old generation, and the
    control holds the group made of them: when no entry of the control
    carries one of the stamps to remove, the loop removes no entry and the
    swap leaves one more entry under the hotspot name. *)
Lemma swap_adds_entry (old : list nat)
    (results : list (option (list Marker))) (c : Component)
    (es : list ControlEntry) :
  layersControlRef c = Some es →
  Forall (λ i, Forall (λ e, layer e ≠ i) es) old →
  length (hotspot_entries (swap old results c))
  = S (length (hotspot_entries c)).
Proof.
  intros Hes Habs.
  destruct (swap_fields old results c) as (ids & c1 & _ & _ & _ & _ & _ & Hc).
  unfold hotspot_entries. rewrite Hc, Hes. simpl.
  rewrite removed_from_control_absent by done.
  unfold control_addOverlay. rewrite List.filter_app, length_app. simpl. lia.
Qed.

Lemma swap_mounted (old : list nat)
    (results : list (option (list Marker))) (c : Component) :
  (is_Some (mapRef c) → is_Some (mapRef (swap old results c)))
  ∧ (is_Some (layersControlRef c) →
     is_Some (layersControlRef (swap old results c))).
Proof.
  destruct (swap_fields old results c)
    as (ids & c1 & _ & _ & _ & _ & Hm & Hc).
  rewrite Hm, Hc. split; intros [x ->]; by eexists.
Qed.

Lemma swap_entries_apart (results : list (option (list Marker)))
    (c : Component) :
  entries_apart c →
  entries_apart (swap (fireDataLayers c) results c)
  ∧ length (hotspot_entries (swap (fireDataLayers c) results c))
    = S (length (hotspot_entries c)).
Proof.
  intros (m & es & Hm & Hes & Hle & Hapart).
  split; [|by apply (swap_adds_entry _ _ _ es)].
  destruct (swap_fields (fireDataLayers c) results c)
    as (ids & c1 & E & Hl & _ & Hf & Hm' & Hc).
  pose proof (create_layers_frame _ _ _ _ E)
    as (Hlast & _ & _ & _ & _ & _ & Hids).
  rewrite Hm in Hm'. rewrite Hes in Hc. simpl in Hm', Hc.
  rewrite removed_from_control_absent in Hc by done.
  eexists _, _. split; [done |]. split; [done |].
  rewrite Hl, Hf. unfold control_addOverlay. split.
  - apply Forall_app. split.
    + eapply Forall_impl; [done |]. simpl. lia.
    + by repeat constructor.
  - eapply Forall_impl; [done |]. simpl. intros i Hi.
    apply Forall_app. split.
    + eapply Forall_impl; [done |]. simpl. lia.
    + repeat constructor. simpl. lia.
Qed.

Lemma init_map_entries_apart : entries_apart (View.init_map unmounted).
Proof. eexists _, _. by repeat split; repeat constructor. Qed.

Lemma init_map_fields (c : Component) :
  is_Some (mapRef (View.init_map c))
  ∧ is_Some (layersControlRef (View.init_map c))
  ∧ hotspot_entries (View.init_map c) = []
  ∧ fireDataLayers (View.init_map c) = fireDataLayers c.
Proof. repeat split; by eexists. Qed.

End ControlEntries.

(** ** The view over time *)
Section ViewProperties.
Context `{KmlLibraries}.
Variable network : N → string → JS.Exc JS.Response.
Import Leaflet Fire View Spec.

Lemma invoke_mounted (v : View) :
  is_Some (mapRef (component v)) →
  is_Some (layersControlRef (component v)) →
  is_Some (mapRef (component (invoke network [] v)))
  ∧ is_Some (layersControlRef (component (invoke network [] v)))
  ∧ length (hotspot_entries (component (invoke network [] v)))
    = S (length (hotspot_entries (component v))).
Proof.
  intros Hm [es Hes].
  destruct (updateFireData_swap [] (network (now v)) (component v) Hm)
    as (results & _ & Hu).
  unfold invoke. simpl. rewrite Hu.
  destruct (swap_mounted [] results (component v)) as [Hm' Hc'].
  split; [by apply Hm' |]. split; [apply Hc'; by eexists |].
  by apply (swap_adds_entry _ _ _ es).
Qed.

Lemma effect_mounts (v : View) :
  container v = true → mapRef (component v) = None →
  effect network v
  = set_interval
      (Some {| due := now v + REFRESH_INTERVAL;
               captured := fireDataLayers (component v) |})
      (invoke network (fireDataLayers (component v))
         {| component := init_map (component v); container := container v;
            now := now v; intervalId := intervalId v; calls := calls v |}).
Proof.
  intros Hc Hm. unfold effect. by rewrite Hc, Hm.
Qed.

Lemma effect_mounted (v : View) :
  container v = false ∨ is_Some (mapRef (component v)) →
  effect network v = v.
Proof.
  intros [Hc|Hm]; unfold effect.
  - by rewrite Hc.
  - rewrite bool_decide_eq_true_2 by done. by rewrite andb_false_r.
Qed.

Lemma effect_invariant (v : View) :
  view_invariant v → view_invariant (effect network v).
Proof.
  intros Hv.
  destruct (container v) eqn:Hcont;
    [|rewrite effect_mounted; [done | by left]].
  destruct (mapRef (component v)) as [m|] eqn:Hmap;
    [rewrite effect_mounted; [done | right; by eexists] |].
  rewrite effect_mounts by done.
  destruct Hv as (Hnone & _ & _ & _).
  destruct (Hnone Hmap) as (_ & _ & Hcalls & Hfdl).
  rewrite Hfdl.
  set (v1 := {| component := init_map (component v);
                container := container v;
                now := now v; intervalId := intervalId v;
                calls := calls v |}).
  destruct (init_map_fields (component v)) as (Hm1 & Hc1 & He1 & _).
  destruct (invoke_mounted v1 Hm1 Hc1) as (Hm2 & Hc2 & He2).
  unfold view_invariant.
  change (component (set_interval _ (invoke network [] v1)))
    with (component (invoke network [] v1)).
  split; [intros Hn; rewrite Hn in Hm2; by destruct Hm2 |].
  split; [done |]. split; [by intros i [= <-] |].
  rewrite He2.
  change (component v1) with (init_map (component v)).
  rewrite He1.
  change (calls (set_interval _ (invoke network [] v1)))
    with (calls v ++ [now v]).
  by rewrite Hcalls.
Qed.

Lemma cleanup_invariant (v : View) :
  view_invariant v → view_invariant (cleanup v).
Proof.
  intros (Hnone & Hsome & _ & Hlen). unfold view_invariant.
  change (component (cleanup v)) with (component v).
  change (calls (cleanup v)) with (calls v).
  split; [|done]. intros Hn. destruct (Hnone Hn) as (? & _ & ? & ?). done.
Qed.

Lemma tick_invariant (v : View) :
  view_invariant v → view_invariant (tick network v).
Proof.
  intros Hv. unfold tick. destruct (intervalId v) as [i|] eqn:Hi; [|done].
  destruct Hv as (_ & Hsome & Hint & Hlen).
  destruct (Hint i Hi) as [Hcap Hm]. rewrite Hcap.
  destruct (invoke_mounted (set_clock (due i) v) Hm (Hsome Hm))
    as (Hm2 & Hc2 & He2).
  unfold view_invariant.
  change (component (set_interval _ (invoke network [] (set_clock (due i) v))))
    with (component (invoke network [] (set_clock (due i) v))).
  split; [intros Hn; rewrite Hn in Hm2; by destruct Hm2 |].
  split; [done |]. split; [by intros ? [= <-] |].
  rewrite He2.
  change (component (set_clock (due i) v)) with (component v).
  change (calls (set_interval _ (invoke network [] (set_clock (due i) v))))
    with (calls v ++ [due i]).
  rewrite length_app, Hlen. simpl. lia.
Qed.

Lemma advance_invariant (dt : N) (v : View) :
  view_invariant v → view_invariant (advance network dt v).
Proof.
  intros Hv. unfold advance.
  assert (view_invariant (N.iter (ticks_due v (now v + dt)) (tick network) v))
    as Hiter by (apply N.iter_invariant; [apply tick_invariant | done]).
  exact Hiter.
Qed.

Lemma run_invariant (es : list Event) : view_invariant (run network es).
Proof.
  unfold run. induction es as [|e es IH] using rev_ind.
  - unfold view_invariant. simpl. repeat split; try done; by intros [? ?].
  - rewrite foldl_app. simpl. destruct e; simpl.
    + by apply effect_invariant.
    + by apply advance_invariant.
    + by apply cleanup_invariant.
Qed.

End ViewProperties.

(** ** Stamps over the life of the view *)
Section ViewStamps.
Context `{KmlLibraries}.
Variable network : N → string → JS.Exc JS.Response.
Import Leaflet Fire View Spec Props.

Lemma invoke_component (fdl : list nat) (v : View) :
  component (invoke network fdl v) = component v
  ∨ (is_Some (mapRef (component v))
     ∧ ∃ results,
         component (invoke network fdl v) = swap fdl results (component v)).
Proof.
  destruct (mapRef (component v)) as [m|] eqn:Hm.
  - right. split; [by eexists |].
    destruct (updateFireData_swap fdl (network (now v)) (component v))
      as (results & _ & Hu); [by eexists |].
    exists results. unfold invoke. simpl. by rewrite Hu.
  - left. unfold invoke, updateFireData. simpl. by rewrite Hm.
Qed.

Lemma invoke_well_formed (fdl : list nat) (v : View) :
  well_formed (component v) →
  well_formed (component (invoke network fdl v)).
Proof.
  intros Hwf. destruct (invoke_component fdl v) as [->|(_ & rs & ->)];
    [done | by apply swap_well_formed].
Qed.

Lemma tick_well_formed (v : View) :
  well_formed (component v) → well_formed (component (tick network v)).
Proof.
  intros Hwf. unfold tick. destruct (intervalId v) as [i|]; [|done].
  change (component (set_interval ?j ?w)) with (component w).
  by apply invoke_well_formed.
Qed.

Lemma step_well_formed (v : View) (e : Event) :
  well_formed (component v) →
  well_formed (component (step network v e)).
Proof.
  intros Hwf. destruct e as [|dt|]; simpl; [| |done].
  - unfold effect. destruct (container v && _); [|done].
    change (component (set_interval ?j ?w)) with (component w).
    apply invoke_well_formed. by apply init_map_well_formed.
  - unfold advance. change (component (set_clock ?t ?w)) with (component w).
    by apply (N.iter_invariant _ _ _ (λ w, well_formed (component w)));
      [intros w; apply tick_well_formed |].
Qed.

Lemma run_well_formed (es : list Event) :
  well_formed (component (run network es)).
Proof.
  unfold run. induction es as [|e es IH] using rev_ind.
  - by intros i [? ?].
  - rewrite foldl_app. by apply step_well_formed.
Qed.

End ViewStamps.

(** ** What the view displays *)
Section DisplayedMarkers.
Context `{KmlLibraries}.
Variable network : N → string → JS.Exc JS.Response.
Import Leaflet Fire View Spec.

(** The markers of the results of a cycle are the markers delivered. *)
Lemma results_delivered (fetch : string → JS.Exc JS.Response)
    (urls : list string) (results : list (option (list Marker)))
    (mk : Marker) :
  Forall2 (λ url r, fetchAndProcessFireKML fetch url = JS.Return r)
    urls results →
  mk ∈ concat (omap id results)
  ↔ ∃ url ms, url ∈ urls
              ∧ fetchAndProcessFireKML fetch url = JS.Return (Some ms)
              ∧ mk ∈ ms.
Proof.
  induction 1 as [|u r us rs Hu _ IH].
  - split; [by intros ?%elem_of_nil |].
    by intros (url & ms & ?%elem_of_nil & _).
  - destruct r as [ms|].
    + change (concat (omap id (Some ms :: rs)))
        with (ms ++ concat (omap id rs)).
      rewrite elem_of_app, IH. split.
      * intros [Hmk|(url & ms' & Hin & Hf & Hmk)].
        -- exists u, ms. split; [by left | done].
        -- exists url, ms'. split; [by right | done].
      * intros (url & ms' & Hin & Hf & Hmk).
        apply elem_of_cons in Hin as [->|Hin].
        -- rewrite Hu in Hf. injection Hf as <-. by left.
        -- right. by exists url, ms'.
    + change (concat (omap id (None :: rs))) with (concat (omap id rs)).
      rewrite IH. split.
      * intros (url & ms' & Hin & Hf & Hmk).
        exists url, ms'. split; [by right | done].
      * intros (url & ms' & Hin & Hf & Hmk).
        apply elem_of_cons in Hin as [->|Hin]; [congruence |].
        by exists url, ms'.
Qed.

(** A swap by a closure that saw [fireDataLayers] empty adds the markers
    of the results to those on display. *)
Lemma swap_shown (results : list (option (list Marker))) (c : Component)
    (m : gset nat) (mk : Marker) :
  well_formed c → map_well_formed c → mapRef c = Some m →
  shown (swap [] results c) mk
  ↔ shown c mk ∨ mk ∈ concat (omap id results).
Proof.
  intros Hwf Hmwf Hm.
  destruct (swap_new_layers [] results c)
    as (Hgeo & Hrange & Hmarkers & Hgroup).
  pose proof (swap_map [] results c m Hmwf Hm (Forall_nil_2 _)) as Hmap.
  change (removed_from_map (objects c) [] m) with m in Hmap.
  rewrite <- Hmarkers, elem_of_concat_map. unfold shown, layer_on_map.
  rewrite Hmap, Hm. split.
  - intros (i & Hi & Hmk). apply bool_decide_eq_true in Hi.
    apply elem_of_union in Hi as [Hi|Hi].
    { right. exists i. split; [by apply elem_of_list_to_set in Hi | done]. }
    apply elem_of_union in Hi as [Hi|Hi].
    { apply elem_of_singleton in Hi as ->. unfold markers_of in Hmk.
      rewrite Hgroup in Hmk. by apply elem_of_nil in Hmk. }
    left. exists i. split; [by apply bool_decide_eq_true |].
    rewrite swap_old_markers in Hmk; [done |]. by apply (Hmwf m).
  - intros [(i & Hi & Hmk)|(i & Hi & Hmk)].
    + apply bool_decide_eq_true in Hi. exists i. split.
      * apply bool_decide_eq_true. set_solver.
      * rewrite swap_old_markers; [done |]. by apply (Hmwf m).
    + exists i. split; [|done]. apply bool_decide_eq_true.
      apply elem_of_union_l. by apply elem_of_list_to_set.
Qed.

Lemma init_map_map_well_formed (c : Component) :
  map_well_formed (init_map c).
Proof.
  intros m i [= <-] Hi. cbn in Hi |- *. revert Hi.
  unfold addLayer. case_bool_decide; [set_solver |].
  rewrite lookup_insert_ne, lookup_insert_eq by lia.
  intros Hi. assert (i = S (lastId c)) as -> by set_solver. lia.
Qed.

(** The map as the effect sets it up shows no hotspot. *)
Lemma init_map_not_shown (c : Component) (mk : Marker) :
  ¬ shown (init_map c) mk.
Proof.
  intros (i & Hi & Hmk). unfold layer_on_map in Hi. cbn in Hi.
  apply bool_decide_eq_true in Hi. revert Hi.
  unfold addLayer. case_bool_decide; [set_solver |].
  rewrite lookup_insert_ne, lookup_insert_eq by lia.
  intros Hi. assert (i = S (lastId c)) as -> by set_solver.
  unfold markers_of in Hmk. cbn in Hmk.
  rewrite lookup_insert_ne, lookup_insert_eq in Hmk by lia.
  by apply elem_of_nil in Hmk.
Qed.

Lemma invoke_map_well_formed (v : View) :
  map_well_formed (component v) →
  map_well_formed (component (invoke network [] v)).
Proof.
  intros Hmwf.
  destruct (invoke_component network [] v) as [->|(_ & rs & ->)]; [done |].
  by apply swap_map_well_formed.
Qed.

(** A cycle of the view, run by a closure that saw [fireDataLayers] empty:
    what it delivers joins what is on display. *)
Lemma invoke_displayed (v : View) (mk : Marker) :
  well_formed (component v) → map_well_formed (component v) →
  is_Some (mapRef (component v)) →
  shown (component (invoke network [] v)) mk
  ↔ shown (component v) mk ∨ delivered (network (now v)) mk.
Proof.
  intros Hwf Hmwf [m Hm].
  destruct (updateFireData_swap [] (network (now v)) (component v))
    as (results & H2 & Hu); [by eexists |].
  unfold invoke. cbn [component]. rewrite Hu.
  rewrite (swap_shown results (component v) m) by done.
  by rewrite (results_delivered _ _ _ mk H2).
Qed.

Lemma initial_display : display_invariant network initial.
Proof.
  split; [by intros i [? ?] |]. split; [done |].
  intros mk. split.
  - by intros (i & Hi & _).
  - by intros (t & ?%elem_of_nil & _).
Qed.

Lemma effect_display (v : View) :
  view_invariant v → display_invariant network v →
  display_invariant network (effect network v).
Proof.
  intros Hv Hd.
  destruct (container v) eqn:Hcont;
    [|rewrite effect_mounted; [done | by left]].
  destruct (mapRef (component v)) as [m|] eqn:Hmap;
    [rewrite effect_mounted; [done | right; by eexists] |].
  rewrite effect_mounts by done.
  destruct Hv as (Hnone & _ & _ & _).
  destruct (Hnone Hmap) as (_ & _ & Hcalls & Hfdl). rewrite Hfdl.
  destruct Hd as (Hwf & _ & _).
  set (v1 := {| component := init_map (component v);
                container := container v;
                now := now v; intervalId := intervalId v;
                calls := calls v |}).
  assert (well_formed (component v1)) as Hwf1
    by (by apply init_map_well_formed).
  assert (map_well_formed (component v1)) as Hmwf1
    by apply init_map_map_well_formed.
  unfold display_invariant.
  change (component (set_interval ?j ?w)) with (component w).
  change (calls (set_interval ?j (invoke network [] v1)))
    with (calls v ++ [now v]).
  split; [by apply invoke_well_formed |].
  split; [by apply invoke_map_well_formed |].
  intros mk. rewrite invoke_displayed; [|done | done | apply init_map_fields].
  rewrite Hcalls. change (now v1) with (now v). split.
  - intros [Hs|Hdel]; [by apply init_map_not_shown in Hs |].
    exists (now v). split; [by left | done].
  - intros (t & Ht & Hdel). right.
    apply list_elem_of_singleton in Ht as ->. done.
Qed.

Lemma tick_display (v : View) :
  view_invariant v → display_invariant network v →
  display_invariant network (tick network v).
Proof.
  intros (_ & _ & Hint & _) (Hwf & Hmwf & Hshown). unfold tick.
  destruct (intervalId v) as [i|] eqn:Hi; [|done].
  destruct (Hint i eq_refl) as [-> Hm].
  unfold display_invariant.
  change (component (set_interval ?j ?w)) with (component w).
  change (calls (set_interval ?j (invoke network [] (set_clock (due i) v))))
    with (calls v ++ [due i]).
  split; [by apply invoke_well_formed |].
  split; [by apply invoke_map_well_formed |].
  intros mk. rewrite invoke_displayed by done.
  change (component (set_clock (due i) v)) with (component v).
  change (now (set_clock (due i) v)) with (due i).
  rewrite Hshown. split.
  - intros [(t & Ht & Hdel)|Hdel].
    + exists t. split; [by apply elem_of_app; left | done].
    + exists (due i). split; [apply elem_of_app; right; by left | done].
  - intros (t & Ht & Hdel). apply elem_of_app in Ht as [Ht|Ht].
    + left. by exists t.
    + right. apply list_elem_of_singleton in Ht as ->. done.
Qed.

Lemma step_display (v : View) (e : Event) :
  view_invariant v → display_invariant network v →
  display_invariant network (step network v e).
Proof.
  intros Hv Hd. destruct e as [|dt|]; simpl.
  - by apply effect_display.
  - unfold advance.
    apply (N.iter_invariant _ _ _
             (λ w, view_invariant w ∧ display_invariant network w));
      [|done].
    intros w [Hw Hdw]. split; [by apply tick_invariant | by apply tick_display].
  - done.
Qed.

Lemma run_display (es : list Event) :
  display_invariant network (run network es).
Proof.
  induction es as [|e es IH] using rev_ind.
  - apply initial_display.
  - unfold run. rewrite foldl_app. apply step_display; [|done].
    apply run_invariant.
Qed.

(** An event only adds calls. *)
Lemma tick_calls (v : View) : ∃ new, calls (tick network v) = calls v ++ new.
Proof.
  unfold tick. destruct (intervalId v) as [i|].
  - by exists [due i].
  - exists []. by rewrite app_nil_r.
Qed.

Lemma step_calls (v : View) (e : Event) :
  ∃ new, calls (step network v e) = calls v ++ new.
Proof.
  destruct e as [|dt|]; simpl.
  - unfold effect. destruct (container v && _).
    + by exists [now v].
    + exists []. by rewrite app_nil_r.
  - unfold advance. change (calls (set_clock ?t ?w)) with (calls w).
    apply (N.iter_invariant _ _ _ (λ w, ∃ new, calls w = calls v ++ new)).
    + intros w [new Hw]. destruct (tick_calls w) as [new' ->].
      exists (new ++ new'). by rewrite Hw, app_assoc.
    + exists []. by rewrite app_nil_r.
  - exists []. by rewrite app_nil_r.
Qed.

(** C2.  Every cycle of the running view is run by the closure of the
    mounting render, which saw [fireDataLayers] empty, so its removal loop
    removes nothing.  Whatever happens to the view, the cycles that run
    while an event is handled run at instants [new]; when every source
    fails in each of them, the markers on display after the event are
    exactly the markers on display before it: the overlay shown before is
    left intact and the map is not blanked. *)
Theorem total_failure_keeps_overlay (es : list Event) (e : Event) :
  ∃ new,
    calls (run network (es ++ [e])) = calls (run network es) ++ new
    ∧ ((∀ t, t ∈ new → total_failure (network t)) →
       ∀ mk, shown (component (run network (es ++ [e]))) mk
             ↔ shown (component (run network es)) mk).
Proof.
  destruct (run_display (es ++ [e])) as (_ & _ & Hafter).
  destruct (run_display es) as (_ & _ & Hbefore).
  destruct (step_calls (run network es) e) as [new Hnew].
  assert (run network (es ++ [e]) = step network (run network es) e) as Hrun
    by (unfold run; by rewrite foldl_app).
  rewrite <- Hrun in Hnew.
  exists new. split; [done |].
  intros Hfail mk. rewrite Hafter, Hbefore, Hnew. split.
  - intros (t & Ht & url & ms & Hurl & Hf & Hmk).
    apply elem_of_app in Ht as [Ht|Ht];
      [|by rewrite (Hfail t Ht url Hurl) in Hf].
    exists t. split; [done |]. by exists url, ms.
  - intros (t & Ht & Hdel). exists t. split; [by apply elem_of_app; left | done].
Qed.

End DisplayedMarkers.

Section DisplayedMarkersExamples.
Import Leaflet Fire View Spec.

(** The first source answers at the mount and every source fails one
    period later: the marker of the mount is still on display. *)
Lemma total_failure_keeps_overlay_witness :
  let network := λ t : N, if (t =? 0)%N then Stub.first_answers "hotspot"
                          else Stub.all_fail in
  shown
    (component
       (@run Stub.libraries network ([Mount] ++ [Advance REFRESH_INTERVAL])))
    Stub.hotspot_marker.
Proof.
  intros network.
  destruct (@total_failure_keeps_overlay Stub.libraries network
              [Mount] (Advance REFRESH_INTERVAL)) as (new & Hnew & Hkeep).
  assert (new = [REFRESH_INTERVAL]) as ->.
  { apply (app_inv_head (calls (@run Stub.libraries network [Mount]))).
    rewrite <- Hnew. by vm_compute. }
  apply Hkeep.
  - intros t ->%list_elem_of_singleton url _. reflexivity.
  - exists 3. split; [by vm_compute |]. vm_compute. by left.
Defined.

End DisplayedMarkersExamples.

(** ** The refresh timer *)
Section Cadence.
Context `{KmlLibraries}.
Variable network : N → string → JS.Exc JS.Response.
Import Leaflet Fire View Spec.

Lemma map_seq_shift {A} (f : nat → A) (a n : nat) :
  map f (seq a n) = map (λ j, f (a + j)) (seq 0 n).
Proof.
  revert a. induction n as [|n IH]; intros a; [done |].
  rewrite !seq_S, !map_app, IH. simpl. done.
Qed.

Lemma multiples_app (k n : nat) :
  multiples (S k)
    ++ map (λ j, ((N.of_nat k + 1) * REFRESH_INTERVAL
                  + N.of_nat j * REFRESH_INTERVAL)%N) (seq 0 n)
  = multiples (S k + n).
Proof.
  unfold multiples. rewrite seq_app, map_app. f_equal.
  rewrite (map_seq_shift _ (0 + S k)). apply map_ext. intros j. lia.
Qed.

Lemma tick_fields (v : View) (d : N) (fdl : list nat) :
  intervalId v = Some {| due := d; captured := fdl |} →
  intervalId (tick network v)
  = Some {| due := d + REFRESH_INTERVAL; captured := fdl |}
  ∧ calls (tick network v) = calls v ++ [d].
Proof. intros Hv. unfold tick. by rewrite Hv. Qed.

(** [n] firings in a row: the callback runs at the due times, one period
    apart. *)
Lemma tick_iter (n : nat) (v : View) (d : N) (fdl : list nat) :
  intervalId v = Some {| due := d; captured := fdl |} →
  intervalId (Nat.iter n (tick network) v)
  = Some {| due := d + N.of_nat n * REFRESH_INTERVAL; captured := fdl |}
  ∧ calls (Nat.iter n (tick network) v)
    = calls v ++ map (λ j, (d + N.of_nat j * REFRESH_INTERVAL)%N) (seq 0 n).
Proof.
  intros Hv. induction n as [|n [IHi IHc]].
  - simpl. rewrite Hv, app_nil_r. split; [|done]. do 2 f_equal. lia.
  - change (Nat.iter (S n) (tick network) v)
      with (tick network (Nat.iter n (tick network) v)).
    destruct (tick_fields _ _ _ IHi) as [-> ->]. split.
    + do 2 f_equal. lia.
    + rewrite IHc, seq_S, map_app, app_assoc. done.
Qed.

Lemma advance_now (dt : N) (v : View) :
  now (advance network dt v) = (now v + dt)%N.
Proof. done. Qed.

Lemma advance_timer (dt : N) (v : View) :
  timer_invariant v → timer_invariant (advance network dt v).
Proof.
  intros (k & Hi & Hc & Hk).
  assert (REFRESH_INTERVAL = 600000%N) as HP by done.
  pose proof (N.div_mod (now v) REFRESH_INTERVAL) as Hdm.
  pose proof (N.mod_lt (now v) REFRESH_INTERVAL) as Hlt.
  rewrite <- Hk in Hdm.
  assert (now v ≤ now v + dt)%N as Hmono by lia.
  set (target := (now v + dt)%N) in *.
  rewrite HP in Hdm, Hlt.
  specialize (Hdm ltac:(lia)). specialize (Hlt ltac:(lia)). clear Hk.
  revert Hdm Hlt. generalize (now v `mod` 600000)%N. intros r Hdm Hlt.
  assert (∃ n : nat,
            ticks_due v target = N.of_nat n
            ∧ N.of_nat (k + n) = (target / REFRESH_INTERVAL)%N)
    as (n & Hn & Hkn).
  { unfold ticks_due. rewrite Hi. cbn [due].
    destruct (N.leb_spec ((N.of_nat k + 1) * REFRESH_INTERVAL) target)
      as [Hle|Hgt].
    - exists (N.to_nat ((target - (N.of_nat k + 1) * REFRESH_INTERVAL)
                        / REFRESH_INTERVAL + 1)).
      rewrite N2Nat.id. split; [done |].
      rewrite Nat2N.inj_add, N2Nat.id.
      assert (target / REFRESH_INTERVAL
              = (target - (N.of_nat k + 1) * REFRESH_INTERVAL)
                  / REFRESH_INTERVAL + (N.of_nat k + 1))%N as ->
        by (rewrite <- N.div_add by lia; f_equal; lia).
      lia.
    - exists 0. split; [done |]. rewrite Nat.add_0_r.
      rewrite HP in Hgt |- *.
      apply (N.div_unique target 600000 _
               (target - N.of_nat k * 600000)); lia. }
  unfold advance. fold target. rewrite Hn, <- Nat2N.inj_iter.
  destruct (tick_iter n v _ _ Hi) as [Hi' Hc'].
  exists (k + n). split; [|split].
  - change (intervalId (set_clock ?t ?w)) with (intervalId w).
    rewrite Hi'. do 2 f_equal. lia.
  - change (calls (set_clock ?t ?w)) with (calls w).
    rewrite Hc', Hc. apply multiples_app.
  - done.
Qed.

Lemma mount_timer : timer_invariant (effect network initial).
Proof. exists 0. by repeat split. Qed.

Lemma advances_timer (dts : list N) (v : View) :
  timer_invariant v →
  timer_invariant (foldl (step network) v (map Advance dts))
  ∧ now (foldl (step network) v (map Advance dts)) = (now v + total dts)%N.
Proof.
  revert v. induction dts as [|dt dts IH]; intros v Hv; simpl.
  - split; [done | lia].
  - destruct (IH (advance network dt v)) as [Ht Hn];
      [by apply advance_timer |].
    split; [done |]. rewrite Hn, advance_now. lia.
Qed.

(** Without an interval nothing runs, however long the clock moves on. *)
Lemma advances_cleared (dts : list N) (v : View) :
  intervalId v = None →
  calls (foldl (step network) v (map Advance dts)) = calls v.
Proof.
  revert v. induction dts as [|dt dts IH]; intros v Hv; simpl; [done |].
  assert (advance network dt v = set_clock (now v + dt) v) as ->.
  { unfold advance, ticks_due. by rewrite Hv. }
  by rewrite IH.
Qed.

Lemma teardown_calls (dts dts' : list N) :
  calls (run network
           (Mount :: map Advance dts ++ Teardown :: map Advance dts'))
  = calls (run network (Mount :: map Advance dts)).
Proof.
  unfold run. rewrite app_comm_cons, foldl_app.
  change (foldl (step network) ?v (Teardown :: ?l))
    with (foldl (step network) (cleanup v) l).
  by rewrite advances_cleared.
Qed.

Lemma mount_advances_calls (dts : list N) :
  calls (run network (Mount :: map Advance dts))
  = multiples (S (N.to_nat (total dts / REFRESH_INTERVAL))).
Proof.
  unfold run. simpl.
  destruct (advances_timer dts _ mount_timer) as [(k & _ & Hc & Hk) Hn].
  rewrite Hc. do 2 f_equal. rewrite Hn in Hk.
  change (now (effect network initial)) with 0%N in Hk.
  rewrite N.add_0_l in Hk. rewrite <- Hk. by rewrite Nat2N.id.
Qed.

Lemma mount_advances_length (dts : list N) :
  length (calls (run network (Mount :: map Advance dts)))
  = S (N.to_nat (total dts / 600000)).
Proof.
  rewrite mount_advances_calls. unfold multiples.
  by rewrite length_map, length_seq.
Qed.

(** C10.  From the mount on, the reconciler has run once at the mount and
    once more at the end of each full period of 600 000 ms that has
    elapsed, at the instants 0, 600 000, 1 200 000, ...; once the effect
    is cleaned up it runs no more, however long the clock moves on.
    Across three periods that is the run at the mount and three more. *)
Theorem scheduler_cadence :
  REFRESH_INTERVAL = 600000%N
  ∧ (∀ dts, calls (run network (Mount :: map Advance dts))
            = multiples (S (N.to_nat (total dts / REFRESH_INTERVAL))))
  ∧ (∀ dts, length (calls (run network (Mount :: map Advance dts)))
            = S (N.to_nat (total dts / 600000)))
  ∧ (∀ dts dts',
       calls (run network
                (Mount :: map Advance dts ++ Teardown :: map Advance dts'))
       = calls (run network (Mount :: map Advance dts)))
  ∧ calls (run network [Mount; Advance (3 * REFRESH_INTERVAL)])
    = [0; 600000; 1200000; 1800000]%N
  ∧ calls (run network
             [Mount; Advance 600000; Advance 600000; Advance 600000;
              Teardown; Advance 600000; Advance 600000])
    = [0; 600000; 1200000; 1800000]%N.
Proof.
  split; [done |]. split; [apply mount_advances_calls |].
  split; [apply mount_advances_length |].
  split; [apply teardown_calls |].
  split; [apply (mount_advances_calls [(3 * REFRESH_INTERVAL)%N]) |].
  etrans;
    [ apply (teardown_calls [600000; 600000; 600000]%N [600000; 600000]%N)
    | apply (mount_advances_calls [600000; 600000; 600000]%N) ].
Qed.

End Cadence.

(** ** The hotspot entry of the control across cycles *)
Section OverlayEntry.
Context `{KmlLibraries}.
Variable network : N → string → JS.Exc JS.Response.
Import Leaflet Fire View Spec.

Lemma fresh_cycles_entries (fetches : list (string → JS.Exc JS.Response))
    (c : Component) :
  entries_apart c →
  entries_apart (fresh_cycles fetches c)
  ∧ length (hotspot_entries (fresh_cycles fetches c))
    = length (hotspot_entries c) + length fetches.
Proof.
  unfold fresh_cycles. revert c.
  induction fetches as [|fetch fetches IH]; intros c Hc; simpl.
  - split; [done | lia].
  - destruct Hc as (m & es & Hm & Hrest).
    destruct (updateFireData_swap (fireDataLayers c) fetch c)
      as (results & _ & ->); [by eexists |].
    destruct (swap_entries_apart results c) as [Hc' Hlen];
      [by exists m, es |].
    destruct (IH _ Hc') as [Hfin Hlen']. split; [done |].
    rewrite Hlen', Hlen. lia.
Qed.

(** C1 fails on the code.  Whatever the network answers and whatever
    happens to the view, the control holds as many entries named for the
    hotspot overlay as cycles have completed: one after the cycle of the
    mount, two after the first refresh period, one more with each further
    period.  The loop that is to remove the old entry runs over the
    [fireDataLayers] that the closure of the mounting render saw, which is
    empty.  Nor would closures that see the current [fireDataLayers] do
    better: the loop is given the layers made by [L.geoJSON], the entry
    holds the group made of them, and the entries pile up all the same. *)
Theorem hotspot_entries_accumulate :
  (∀ es, length (hotspot_entries (component (run network es)))
         = length (calls (run network es)))
  ∧ (∀ fetches,
       length (hotspot_entries
                 (fresh_cycles fetches (init_map unmounted)))
       = length fetches)
  ∧ (∀ dts, length (hotspot_entries
                      (component (run network (Mount :: map Advance dts))))
            = S (N.to_nat (total dts / 600000)))
  ∧ length (hotspot_entries (component (run network [Mount]))) = 1
  ∧ length (hotspot_entries
              (component (run network [Mount; Advance REFRESH_INTERVAL])))
    = 2.
Proof.
  assert (∀ es, length (hotspot_entries (component (run network es)))
                = length (calls (run network es))) as Hall.
  { intros es. by destruct (run_invariant network es) as (_ & _ & _ & ?). }
  pose proof (mount_advances_length network) as Hlen.
  split; [done |]. split; [|split; [|split]].
  - intros fetches.
    by destruct (fresh_cycles_entries fetches _ init_map_entries_apart)
      as [_ ->].
  - intros dts. by rewrite Hall, Hlen.
  - rewrite Hall. apply (Hlen []).
  - rewrite Hall. apply (Hlen [REFRESH_INTERVAL]).
Qed.

End OverlayEntry.

Section OverlayEntryExamples.
Import Leaflet Fire View Spec.

(** Two cycles on the stand-in libraries, as the timer runs them: two
    entries, for the groups 4 and 6, and both markers on the map. *)
Example two_cycles_two_entries :
  let v := @run Stub.libraries (λ _, Stub.first_answers "hotspot")
             [Mount; Advance REFRESH_INTERVAL] in
  map layer (hotspot_entries (component v)) = [4; 6]
  ∧ markers_on_map (component v) = [Stub.hotspot_marker; Stub.hotspot_marker].
Proof. by vm_compute. Qed.

(** The same when the second cycle is run by a closure that sees the
    generation of the first in [fireDataLayers]: the loop asks the control
    to remove layer 3, the layer made by [L.geoJSON], while the entry
    holds layer 4, the group made of it. *)
Example fresh_closure_two_entries :
  fireDataLayers Stub.after_first_cycle = [3]
  ∧ map layer (hotspot_entries Stub.after_first_cycle) = [4]
  ∧ ∃ c', @updateFireData Stub.libraries
            (fireDataLayers Stub.after_first_cycle)
            (Stub.first_answers "hotspot") Stub.after_first_cycle
          = JS.Return c'
          ∧ map layer (hotspot_entries c') = [4; 6].
Proof.
  split; [reflexivity |]. split; [reflexivity |].
  eexists. split; reflexivity.
Qed.

(** When the effect runs again after its cleanup (its dependencies
    changed), the map exists already and no interval is set: the refresh
    stops. *)
Example effect_again_sets_no_interval :
  let v := @run Stub.libraries (λ _, Stub.all_fail)
             [Mount; Advance REFRESH_INTERVAL; Teardown; Mount;
              Advance REFRESH_INTERVAL; Advance REFRESH_INTERVAL] in
  intervalId v = None ∧ calls v = [0; 600000]%N.
Proof. by vm_compute. Qed.

End OverlayEntryExamples.

(** * Further properties of the code *)

(** ** The per-source pipeline, case by case *)
Section PipelineCases.
Context `{KmlLibraries}.
Import GeoJSON Leaflet Fire Spec.


End PipelineCases.


(** ** What the annotator lets through *)
Section CapturedValues.
Import GeoJSON Fire Spec.

Lemma first_row_cell_value (s label v : string) :
  first_row s label v → cell_value v.
Proof. by intros (i & (a & b & _ & _ & Hv) & _). Qed.

(** X2.  Whatever the description of a feature holds, a field that the
    annotator extracts is never empty and never contains the character
    [<]: no markup of the description reaches the popup through a field. *)
Theorem captured_fields_are_cell_values (p : Properties) (v : string) :
  dateTime (annotate p) = Some v ∨ satellite (annotate p) = Some v
  ∨ municipio (annotate p) = Some v ∨ estado (annotate p) = Some v →
  v ≠ EmptyString ∧ no_lt v = true.
Proof.
  unfold annotate.
  destruct (description p) as [[|c d]|];
    cbn [dateTime satellite municipio estado]; try (by intros [|[|[|]]]).
  intros [Hv|[Hv|[Hv|Hv]]];
    apply regex_match_first in Hv; by apply first_row_cell_value in Hv.
Qed.

Lemma captured_fields_are_cell_values_witness :
  "AQUA_M-T" ≠ EmptyString ∧ no_lt "AQUA_M-T" = true.
Proof.
  apply (captured_fields_are_cell_values Stub.described "AQUA_M-T").
  right. left. reflexivity.
Defined.

End CapturedValues.

(** ** The proxy and the upstream server *)
Section ProxyUpstream.
Import Proxy.

(** X3.  The reply of the proxy depends on the upstream server only
    through its answer for the very address the request names, and only
    when that address passes the allow-list.  Two upstream servers that
    give the same answer for that one address get the same reply, however
    they differ on every other address; and when the address is missing,
    empty or not allowed, every upstream server gets the same reply. *)
Theorem proxy_asks_allowed_only (url : option string)
    (fetch fetch' : string → JS.Exc JS.Response) :
  (∀ u, url = Some u → JS.startsWith u allowed_prefix = true →
        fetch u = fetch' u) →
  GET url fetch = GET url fetch'.
Proof.
  intros Hsame. destruct url as [[|c u]|]; try done.
  destruct (JS.startsWith (String c u) allowed_prefix) eqn:Hu.
  - by rewrite !GET_allowed, (Hsame _ eq_refl Hu).
  - rewrite !GET_refused; [done | |]; by intros ? [= <-].
Qed.

Lemma proxy_asks_allowed_only_witness :
  GET (Some "https://dataserver-coids.inpe.br/focos.kml") Stub.all_fail
  = GET (Some "https://dataserver-coids.inpe.br/focos.kml")
      (λ u, if String.eqb u "https://dataserver-coids.inpe.br/focos.kml"
            then Stub.all_fail u
            else JS.Return (Stub.answer "hotspot")).
Proof.
  apply proxy_asks_allowed_only. by intros u [= <-] _.
Defined.

Lemma ok_status (resp : JS.Response) :
  JS.ok resp = false → JS.status resp ≠ 200.
Proof. unfold JS.ok. intros Hok Hs. by rewrite Hs in Hok. Qed.

(** X4.  A reply of the proxy carries a text body exactly when its status
    is 200, and that is exactly when the address passed the allow-list, the
    upstream server answered with a success status and its body could be
    read; the body is then the upstream text.  Every other reply is a JSON
    error. *)
Theorem proxy_body_iff_success (url : option string)
    (fetch : string → JS.Exc JS.Response) (r : NextResponse) :
  GET url fetch = JS.Return r →
  (status r = 200 ↔ ∃ data, body r = Text data)
  ∧ (∀ data,
       body r = Text data
       ↔ ∃ u resp, url = Some u
                   ∧ JS.startsWith u allowed_prefix = true
                   ∧ fetch u = JS.Return resp
                   ∧ JS.ok resp = true
                   ∧ JS.text resp = JS.Return data)
  ∧ (status r ≠ 200 →
     content_type r = "application/json" ∧ ∃ e, body r = Json_error e).
Proof.
  intros HG.
  assert ((∃ u resp data,
             url = Some u ∧ JS.startsWith u allowed_prefix = true
             ∧ fetch u = JS.Return resp ∧ JS.ok resp = true
             ∧ JS.text resp = JS.Return data
             ∧ r = {| status := 200;
                      content_type :=
                        JS.or_else (JS.content_type resp) kml_mime;
                      body := Text data |})
          ∨ (status r ≠ 200 ∧ content_type r = "application/json"
             ∧ ∃ e, body r = Json_error e)) as Hcases.
  { destruct url as [u|].
    2: { rewrite GET_refused in HG by done.
         injection HG as <-. right. by repeat split; eauto. }
    destruct (JS.startsWith u allowed_prefix) eqn:Hu.
    2: { rewrite GET_refused in HG by (by intros ? [= <-]).
         injection HG as <-. right. by repeat split; eauto. }
    destruct u as [|c u]; [done |].
    rewrite GET_allowed in HG by done.
    destruct (fetch (String c u)) as [resp|e] eqn:Hf;
      cbn [JS.bind JS.try_catch] in HG;
      [|injection HG as <-; right; by repeat split; eauto].
    destruct (JS.ok resp) eqn:Hok; cbn [negb] in HG.
    - destruct (JS.text resp) as [data|e] eqn:Ht;
        cbn [JS.bind JS.try_catch] in HG; injection HG as <-.
      + left. by exists (String c u), resp, data.
      + right. by repeat split; eauto.
    - destruct (NextResponse_json_cases
                  ("Falha ao buscar dados do INPE: " +:+ JS.statusText resp)
                  (JS.status resp)) as [E|[e E]];
        rewrite E in HG; cbn [JS.try_catch] in HG; injection HG as <-.
      + right. split; [by apply ok_status |]. split; [done | eauto].
      + right. by repeat split; eauto. }
  destruct Hcases as
    [(u & resp & data & -> & Hu & Hf & Hok & Ht & ->) | (Hs & Hct & e & He)].
  - split; [split; eauto |]. split; [|done].
    intros data'. split.
    + intros [= <-]. by exists u, resp.
    + intros (u' & resp' & [= <-] & _ & Hf' & _ & Ht').
      rewrite Hf in Hf'. injection Hf' as <-.
      rewrite Ht in Ht'. by injection Ht' as <-.
  - split; [split; [done | intros [data Hd]; congruence] |].
    split; [|eauto].
    intros data. split; [congruence |].
    intros (u & resp & -> & Hu & Hf & Hok & Ht). exfalso.
    destruct u as [|c u]; [done |].
    rewrite GET_allowed in HG by done.
    rewrite Hf in HG. cbn [JS.bind] in HG. rewrite Hok in HG.
    cbn [negb] in HG. rewrite Ht in HG. cbn [JS.bind JS.try_catch] in HG.
    injection HG as <-. done.
Qed.

Lemma proxy_body_iff_success_witness :
  status {| status := 200;
            content_type := "application/vnd.google-earth.kml+xml";
            body := Text "hotspot" |} = 200
  ↔ ∃ data,
      body {| status := 200;
              content_type := "application/vnd.google-earth.kml+xml";
              body := Text "hotspot" |} = Text data.
Proof.
  apply (proxy_body_iff_success
           (Some "https://dataserver-coids.inpe.br/focos.kml")
           (Sample.upstream "hotspot")).
  reflexivity.
Defined.

End ProxyUpstream.

(** ** The map, the proxy and the upstream server together *)
Section EndToEnd.
Context `{KmlLibraries}.
Variable decodeURIComponent : string → string.
Variable stringify_error : string → string.
Import Fire Proxy Route.

Lemma inpeUrls_allowed :
  Forall (λ u, JS.startsWith u allowed_prefix = true) inpeUrls.
Proof. by repeat constructor. Qed.

(** X5.  Every configured source passes the allow-list of the proxy, and
    when the query parameter decodes back to the address of the source,
    the map gets through the proxy what it would get by reading the
    upstream server itself: the layer made of the upstream text when the
    upstream answers with a success status and its body can be read, and
    [null] when the upstream fails, answers with another status, or its
    body cannot be read. *)
Theorem through_the_proxy (upstream : string → JS.Exc JS.Response)
    (inpeUrl : string) :
  inpeUrl ∈ inpeUrls →
  decodeURIComponent (encodeURIComponent inpeUrl) = inpeUrl →
  JS.startsWith inpeUrl allowed_prefix = true
  ∧ fetchAndProcessFireKML
      (served decodeURIComponent stringify_error upstream) inpeUrl
    = match upstream inpeUrl with
      | JS.Return resp =>
          if JS.ok resp then
            match JS.text resp with
            | JS.Return kmlText => processKMLText kmlText inpeUrl
            | JS.Throw _ => JS.Return None
            end
          else JS.Return None
      | JS.Throw _ => JS.Return None
      end.
Proof.
  intros Hin Hdec.
  assert (JS.startsWith inpeUrl allowed_prefix = true) as Hallowed.
  { pose proof inpeUrls_allowed as Hall. rewrite Forall_forall in Hall.
    by apply Hall. }
  split; [done |].
  unfold fetchAndProcessFireKML, served.
  rewrite strip_prefix_app, Hdec.
  destruct inpeUrl as [|c u]; [done |].
  rewrite GET_allowed by done.
  destruct (upstream (String c u)) as [resp|e]; [|done].
  cbn [JS.bind JS.try_catch].
  destruct (JS.ok resp) eqn:Hok; cbn [negb JS.bind JS.try_catch].
  - destruct (JS.text resp) as [t|e]; [|done].
    cbn [JS.bind JS.try_catch as_fetched JS.ok JS.status status JS.text
         body negb andb Nat.leb].
    by destruct (processKMLText_returns t (String c u)) as [r ->].
  - destruct (NextResponse_json_cases
                ("Falha ao buscar dados do INPE: " +:+ JS.statusText resp)
                (JS.status resp)) as [-> | [e ->]];
      cbn [JS.bind JS.try_catch].
    + change (JS.ok (as_fetched stringify_error ?r)) with (JS.ok resp).
      by rewrite Hok.
    + done.
Qed.

End EndToEnd.

Lemma through_the_proxy_witness :
  @Fire.fetchAndProcessFireKML Stub.libraries
    (Route.served (λ q, q) (λ e, e) (Sample.upstream "hotspot"))
    (hd "" Fire.inpeUrls)
  = JS.Return (Some [Stub.hotspot_marker]).
Proof.
  refine (eq_trans
            (proj2 (@through_the_proxy Stub.libraries (λ q, q) (λ e, e)
                      (Sample.upstream "hotspot") (hd "" Fire.inpeUrls)
                      _ _)) _).
  - by left.
  - reflexivity.
  - reflexivity.
Defined.

(** ** What a cycle keeps *)
Section KeptLayers.
Context `{KmlLibraries}.
Import GeoJSON Leaflet Fire Spec Props.

Lemma control_removeLayer_sublist (i : nat) (es : list ControlEntry) :
  control_removeLayer i es `sublist_of` es.
Proof.
  induction es as [|e es IH]; simpl; [done |].
  destruct (layer e =? i); [by apply sublist_cons | by apply sublist_skip].
Qed.

Lemma control_removeLayer_keeps (i : nat) (es : list ControlEntry)
    (e : ControlEntry) :
  e ∈ es → layer e ≠ i → e ∈ control_removeLayer i es.
Proof.
  intros He Hne. induction es as [|x es IH]; simpl; [done |].
  apply elem_of_cons in He as [->|He].
  - apply Nat.eqb_neq in Hne. rewrite Hne. by left.
  - destruct (layer x =? i); [done |]. right. by apply IH.
Qed.

Lemma removed_from_control_sublist (old : list nat) (es : list ControlEntry) :
  removed_from_control old es `sublist_of` es.
Proof.
  unfold removed_from_control. revert es.
  induction old as [|i old IH]; intros es; simpl; [done |].
  etrans; [apply IH | apply control_removeLayer_sublist].
Qed.

Lemma removed_from_control_keeps (old : list nat) (es : list ControlEntry)
    (e : ControlEntry) :
  e ∈ es → layer e ∉ old → e ∈ removed_from_control old es.
Proof.
  unfold removed_from_control. revert es.
  induction old as [|i old IH]; intros es He Hn; simpl; [done |].
  apply IH; [|set_solver].
  apply control_removeLayer_keeps; [done | set_solver].
Qed.

(** X7.  A cycle leaves alone what it does not list.  The entries of the
    control after the cycle are entries it held before, in their order,
    followed by the new hotspot overlay; an entry is dropped only if its
    layer is listed in the [fireDataLayers] the closure sees.  A layer on
    the map that is not listed stays on the map, and no layer made before
    the cycle is changed.  So the base layers and the farm overlay are
    never disturbed by a refresh. *)
Theorem cycle_keeps_other_layers (old : list nat)
    (fetch : string → JS.Exc JS.Response) (c : Component)
    (m : gset nat) (es : list ControlEntry) :
  well_formed c → map_well_formed c →
  mapRef c = Some m → layersControlRef c = Some es →
  Forall (is_GeoJSON c) old →
  ∃ c' kept,
    updateFireData old fetch c = JS.Return c'
    ∧ entries c'
      = kept ++ [{| layer := lastId c'; name := hotspot_overlay_name;
                    overlay := true |}]
    ∧ kept `sublist_of` es
    ∧ (∀ e, e ∈ es → layer e ∉ old → e ∈ kept)
    ∧ (∀ i, i ∈ m → i ∉ old → layer_on_map c' i = true)
    ∧ (∀ i, i ≤ lastId c → objects c' !! i = objects c !! i).
Proof.
  intros Hwf Hmwf Hm Hes Hold.
  pose proof (well_formed_le _ _ Hwf Hold) as Hle.
  destruct (updateFireData_swap old fetch c) as (results & _ & Hu);
    [by eexists |].
  exists (swap old results c), (removed_from_control old es).
  split; [done |].
  destruct (swap_fields old results c)
    as (ids & c1 & E & Hl & _ & _ & _ & Hc).
  split; [|split; [|split; [|split]]].
  - unfold entries. rewrite Hc, Hes, Hl. done.
  - apply removed_from_control_sublist.
  - intros e He Hn. by apply removed_from_control_keeps.
  - intros i Hi Hn. rewrite (swap_old_layer _ _ _ m); try done.
    + apply bool_decide_eq_true. rewrite removed_from_map_GeoJSON by done.
      apply elem_of_difference. split; [done |].
      by intros ?%elem_of_list_to_set.
    + by apply (Hmwf m).
  - intros i Hi. by apply swap_objects_old.
Qed.

End KeptLayers.

Lemma map_well_formed_check (c : Fire.Component) :
  match Fire.mapRef c with
  | Some m => bool_decide (set_Forall (λ i, i ≤ Fire.lastId c) m)
  | None => true
  end = true →
  Spec.map_well_formed c.
Proof.
  intros Hc m i Hm Hi. rewrite Hm in Hc.
  apply bool_decide_eq_true in Hc. by apply Hc.
Qed.

Lemma cycle_keeps_other_layers_witness :
  ∃ c' kept,
    @Fire.updateFireData Stub.libraries
      (Fire.fireDataLayers Stub.after_first_cycle) Stub.all_fail
      Stub.after_first_cycle = JS.Return c'
    ∧ Props.entries c'
      = kept ++ [{| Leaflet.layer := Fire.lastId c';
                    Leaflet.name := Fire.hotspot_overlay_name;
                    Leaflet.overlay := true |}]
    ∧ Fire.layer_on_map c' 1 = true.
Proof.
  destruct (@cycle_keeps_other_layers Stub.libraries
              (Fire.fireDataLayers Stub.after_first_cycle) Stub.all_fail
              Stub.after_first_cycle {[1; 3; 4]}
              (Props.entries Stub.after_first_cycle))
    as (c' & kept & Hu & He & _ & _ & Hon & _).
  - apply after_first_cycle_well_formed.
  - apply map_well_formed_check. by vm_compute.
  - by vm_compute.
  - reflexivity.
  - repeat constructor. by eexists.
  - exists c', kept. repeat split; try done.
    apply Hon; [set_solver |].
    apply (bool_decide_eq_false
             (1 ∈ Fire.fireDataLayers Stub.after_first_cycle)).
    by vm_compute.
Defined.

(** ** The life of the view *)
Section ViewLife.
Context `{KmlLibraries}.
Variable network : N → string → JS.Exc JS.Response.
Import Leaflet Fire View Spec Props.

(** A cycle run by a closure that saw [fireDataLayers] empty takes nothing
    off the map. *)
Lemma invoke_keeps_shown (v : View) (mk : Marker) :
  well_formed (component v) →
  shown (component v) mk → shown (component (invoke network [] v)) mk.
Proof.
  intros Hwf (i & Hon & Hmk).
  destruct (invoke_component network [] v) as [->|([m Hm] & rs & ->)];
    [by exists i |].
  assert (i ≤ lastId (component v)) as Hi.
  { apply Hwf. destruct (markers_of_GeoJSON _ _ _ Hmk) as [ms Hms].
    by eexists. }
  exists i. rewrite (swap_old_layer _ _ _ m), swap_old_markers by done.
  split; [|done]. unfold layer_on_map in Hon. by rewrite Hm in Hon.
Qed.

Lemma tick_keeps_shown (v : View) (mk : Marker) :
  view_invariant v → well_formed (component v) →
  shown (component v) mk → shown (component (tick network v)) mk.
Proof.
  intros (_ & _ & Hint & _) Hwf Hs. unfold tick.
  destruct (intervalId v) as [i|] eqn:Hi; [|done].
  destruct (Hint i eq_refl) as [-> _].
  change (component (set_interval ?j ?w)) with (component w).
  by apply (invoke_keeps_shown (set_clock (due i) v)).
Qed.

(** X6.  What the view displays is what its cycles have delivered: a
    marker is on display exactly when some source delivered it in one of
    the cycles run so far, however long ago.  After the mount and any
    advances of the clock these are the cycles at the instants 0, P, 2P,
    ... that the clock has reached, P being the refresh period. *)
Theorem displayed_markers_exactly (es : list Event) (dts : list N)
    (mk : Marker) :
  (shown (component (run network es)) mk
   ↔ ∃ t, t ∈ calls (run network es) ∧ delivered (network t) mk)
  ∧ (shown (component (run network (Mount :: map Advance dts))) mk
     ↔ ∃ j : nat,
         (N.of_nat j * REFRESH_INTERVAL ≤ total dts)%N
         ∧ delivered (network (N.of_nat j * REFRESH_INTERVAL)) mk).
Proof.
  split; [apply run_display |].
  destruct (run_display network (Mount :: map Advance dts)) as (_ & _ & ->).
  rewrite mount_advances_calls.
  pose proof (N.Div0.mul_div_le (total dts) REFRESH_INTERVAL) as Hdiv.
  rewrite N.mul_comm in Hdiv.
  set (q := (total dts / REFRESH_INTERVAL)%N) in *.
  split.
  - intros (t & Ht & Hdel). unfold multiples in Ht.
    apply list_elem_of_fmap in Ht as (j & -> & Hj).
    apply elem_of_seq in Hj. exists j. split; [|done].
    assert (N.of_nat j ≤ q)%N as Hle by lia.
    apply (N.mul_le_mono_r _ _ REFRESH_INTERVAL) in Hle.
    etrans; [exact Hle | exact Hdiv].
  - intros (j & Hj & Hdel). exists (N.of_nat j * REFRESH_INTERVAL)%N.
    split; [|done]. unfold multiples.
    apply list_elem_of_fmap. exists j. split; [done |].
    apply elem_of_seq.
    assert (N.of_nat j ≤ q)%N as Hle; [|lia].
    rewrite N.mul_comm in Hj. by apply N.div_le_lower_bound in Hj.
Qed.

(** X8.  Under the timer nothing is ever taken off the map: whatever
    happens to the view (mount, time passing, cleanup), a hotspot marker
    that is on display stays on display.  The markers of every cycle pile
    up, because the closure the interval calls sees [fireDataLayers]
    empty. *)
Theorem displayed_markers_accumulate (es : list Event) (e : Event)
    (mk : Marker) :
  shown (component (run network es)) mk →
  shown (component (run network (es ++ [e]))) mk.
Proof.
  unfold run at 2. rewrite foldl_app. fold (run network es).
  pose proof (run_invariant network es) as Hinv.
  pose proof (run_well_formed network es) as Hwf.
  generalize dependent (run network es). intros v Hinv Hwf Hs.
  destruct e as [|dt|]; simpl; [| |done].
  - pose proof Hs as (i & Hon & _).
    rewrite effect_mounted; [done |].
    right. unfold layer_on_map in Hon.
    destruct (mapRef (component v)); [by eexists | done].
  - unfold advance. change (component (set_clock ?t ?w)) with (component w).
    apply (N.iter_invariant _ _ _
             (λ w, view_invariant w ∧ well_formed (component w)
                   ∧ shown (component w) mk)); [|done].
    intros w (Hi & Hw & Hsw). split; [by apply tick_invariant |].
    split; [by apply tick_well_formed | by apply tick_keeps_shown].
Qed.

(** X9.  Running the effect twice is running it once: once the map
    exists, the effect makes no second map, no second first fetch and no
    second interval. *)
Theorem effect_idempotent (v : View) :
  effect network (effect network v) = effect network v.
Proof.
  destruct (container v) eqn:Hc.
  2: { rewrite (effect_mounted network v); [|by left].
       apply effect_mounted. by left. }
  destruct (mapRef (component v)) as [m|] eqn:Hm.
  - rewrite (effect_mounted network v); [|right; rewrite Hm; by eexists].
    apply effect_mounted. right. rewrite Hm. by eexists.
  - apply effect_mounted. right. rewrite effect_mounts by done.
    change (component (set_interval ?j ?w)) with (component w).
    destruct (invoke_component network (fireDataLayers (component v))
                {| component := init_map (component v);
                   container := container v; now := now v;
                   intervalId := intervalId v; calls := calls v |})
      as [->|(_ & rs & ->)].
    + apply init_map_fields.
    + apply swap_mounted, init_map_fields.
Qed.

(** X10.  Once the map exists, the cleanup ends the refresh for good: the
    effect that runs again afterwards sets no interval, and however long
    the clock moves on the reconciler is not called again. *)
Theorem no_refresh_after_cleanup (v : View) (dts : list N) :
  is_Some (mapRef (component v)) →
  intervalId (effect network (cleanup v)) = None
  ∧ calls (foldl (step network) (effect network (cleanup v))
             (map Advance dts))
    = calls v.
Proof.
  intros Hm. rewrite effect_mounted; [|by right].
  split; [done |]. by rewrite advances_cleared.
Qed.

(** X11.  The guard of [updateFireData] never fires in the life of the
    view: without a map the function returns at once, fetching nothing
    and changing nothing, and whatever happens to the view, whenever the
    reconciler has been called or an interval is set, the map and the
    control exist. *)
Theorem reconciler_runs_mounted (es : list Event) :
  (∀ old fetch c, mapRef c = None →
                  updateFireData old fetch c = JS.Return c)
  ∧ (calls (run network es) ≠ [] ∨ is_Some (intervalId (run network es)) →
     is_Some (mapRef (component (run network es)))
     ∧ is_Some (layersControlRef (component (run network es)))).
Proof.
  split.
  - intros old fetch c Hm. unfold updateFireData. by rewrite Hm.
  - destruct (run_invariant network es) as (Hnone & Hsome & Hint & _).
    intros Hrun.
    assert (is_Some (mapRef (component (run network es)))) as Hm.
    { destruct (mapRef (component (run network es))) eqn:Hmap;
        [by eexists |].
      destruct (Hnone eq_refl) as (_ & Hi & Hc & _).
      destruct Hrun as [Hrun|[i Hrun]]; congruence. }
    split; [done | by apply Hsome].
Qed.

End ViewLife.

Lemma displayed_markers_accumulate_witness :
  Spec.shown
    (View.component
       (@View.run Stub.libraries (λ _, Stub.first_answers "hotspot")
          ([View.Mount] ++ [View.Advance View.REFRESH_INTERVAL])))
    Stub.hotspot_marker.
Proof.
  apply (@displayed_markers_accumulate Stub.libraries).
  exists 3. split; [by vm_compute |]. vm_compute. by left.
Defined.

Lemma no_refresh_after_cleanup_witness :
  View.calls
    (foldl (@View.step Stub.libraries (λ _, Stub.all_fail))
       (@View.effect Stub.libraries (λ _, Stub.all_fail)
          (View.cleanup
             (@View.run Stub.libraries (λ _, Stub.all_fail) [View.Mount])))
       (map View.Advance [View.REFRESH_INTERVAL; View.REFRESH_INTERVAL]))
  = [0%N].
Proof.
  refine (proj2 (@no_refresh_after_cleanup Stub.libraries (λ _, Stub.all_fail)
                   (@View.run Stub.libraries (λ _, Stub.all_fail)
                      [View.Mount])
                   [View.REFRESH_INTERVAL; View.REFRESH_INTERVAL] _)).
  by eexists.
Defined.

Lemma reconciler_runs_mounted_witness :
  is_Some
    (Fire.mapRef
       (View.component
          (@View.run Stub.libraries (λ _, Stub.all_fail) [View.Mount]))).
Proof.
  apply (@reconciler_runs_mounted Stub.libraries (λ _, Stub.all_fail)
           [View.Mount]).
  left. discriminate.
Defined.

(** ** The boundary layer *)
Section BoundaryLayer.
Context `{LeafletGeometry} `{KmlLibraries}.
Import GeoJSON Leaflet Fire Boundary Spec Props.

(** X12.  The farm layer draws the features that have a geometry, one
    layer each and in their order, every one with the popup of its name
    (or the fallback); features without geometry are skipped.  A feature
    that is not a point gets the style the resolver gives it; a point is
    drawn as a marker and gets no style.  Building the layer throws
    exactly when Leaflet rejects the geometry of some feature. *)
Theorem farm_layer_shapes (fs : list Feature) :
  (∀ shapes, geoJSON_shapes fs = JS.Return shapes →
             Forall2 drawn_as (with_geometry fs) shapes)
  ∧ ((∃ e, geoJSON_shapes fs = JS.Throw e)
     ↔ ∃ f g e, f ∈ fs ∧ geometry f = Some g
                ∧ layer_bounds g = JS.Throw e).
Proof.
  induction fs as [|f fs [IH1 IH2]]; simpl.
  - split; [intros shapes [= <-]; constructor |].
    split; [by intros [e ?] | by intros (f & g & e & ?%elem_of_nil & _)].
  - destruct (geometry f) as [g|] eqn:Hg; simpl.
    + destruct (layer_bounds g) as [b|e] eqn:Hb; simpl.
      * destruct (geoJSON_shapes fs) as [ss|e] eqn:Hss; simpl.
        -- split.
           ++ intros shapes [= <-]. constructor; [|by apply IH1].
              split; [done |]. split; [done |]. exists g.
              split; [done |]. cbn [path extent]. unfold has_setStyle.
              split; [by intros -> |]. split; [|done].
              intros Hg'. apply String.eqb_neq in Hg'. by rewrite Hg'.
           ++ split; [by intros [e ?] |].
              intros (f' & g' & e & Hin & Hg' & Hb').
              apply elem_of_cons in Hin as [->|Hin]; [congruence |].
              apply proj2 in IH2. destruct IH2 as [e' He']; [|done].
              by exists f', g', e.
        -- split; [done |]. split; [|by eauto].
           intros _. destruct IH2 as [(f' & g' & e' & Hin & ?) _]; [by eauto |].
           exists f', g', e'. split; [by right | done].
      * split; [done |]. split; [|by eauto].
        intros _. exists f, g, e. split; [by left | done].
    + split; [done |]. rewrite IH2. split.
      * intros (f' & g & e & Hin & ?). exists f', g, e.
        split; [by right | done].
      * intros (f' & g & e & Hin & Hg' & Hb).
        apply elem_of_cons in Hin as [->|Hin]; [congruence |].
        by exists f', g, e.
Qed.

(** X13.  [loadFarmKML] never throws, and it leaves the page exactly as it
    was unless the file was fetched with a success status, its text read
    and parsed without parser error and converted, it holds at least one
    feature and the layer could be built: then, and only then, is the farm
    layer made. *)
Theorem loadFarmKML_cases (fetch : string → JS.Exc JS.Response)
    (kmlUrl layerName : string) (p : Page) :
  (∃ p', loadFarmKML fetch kmlUrl layerName p = JS.Return p'
         ∧ (p' = p
            ∨ ∃ resp kmlText d geojson shapes,
                fetch kmlUrl = JS.Return resp
                ∧ JS.ok resp = true
                ∧ JS.text resp = JS.Return kmlText
                ∧ parseFromString kmlText = JS.Return d
                ∧ parsererrors d = []
                ∧ kml d = JS.Return geojson
                ∧ features geojson ≠ []
                ∧ geoJSON_shapes (features geojson) = JS.Return shapes
                ∧ p' = add_farm_layer layerName shapes p))
  ∧ ∀ resp kmlText d geojson shapes,
      fetch kmlUrl = JS.Return resp → JS.ok resp = true →
      JS.text resp = JS.Return kmlText →
      parseFromString kmlText = JS.Return d → parsererrors d = [] →
      kml d = JS.Return geojson → features geojson ≠ [] →
      geoJSON_shapes (features geojson) = JS.Return shapes →
      loadFarmKML fetch kmlUrl layerName p
      = JS.Return (add_farm_layer layerName shapes p).
Proof.
  split.
  2: { intros resp kmlText d geojson shapes Hf Hok Ht Hd He Hk Hne Hs.
       unfold loadFarmKML. rewrite Hf. cbn [JS.bind]. rewrite Hok.
       cbn [negb]. rewrite Ht. cbn [JS.bind]. rewrite Hd. cbn [JS.bind].
       rewrite He, Hk. cbn [JS.bind].
       destruct (features geojson) as [|f fs]; [done |].
       by rewrite Hs. }
  unfold loadFarmKML.
  destruct (fetch kmlUrl) as [resp|e] eqn:Hf; cbn [JS.bind JS.try_catch];
    [|by eauto].
  destruct (JS.ok resp) eqn:Hok; cbn [negb JS.bind JS.try_catch]; [|by eauto].
  destruct (JS.text resp) as [t|e] eqn:Ht; cbn [JS.bind JS.try_catch];
    [|by eauto].
  destruct (parseFromString t) as [d|e] eqn:Hd; cbn [JS.bind JS.try_catch];
    [|by eauto].
  destruct (parsererrors d) as [|x xs] eqn:He; cbn [JS.bind JS.try_catch];
    [|by eauto].
  destruct (kml d) as [geojson|e] eqn:Hk; cbn [JS.bind JS.try_catch];
    [|by eauto].
  destruct (features geojson) as [|f fs] eqn:Hfs; [by eauto |].
  destruct (geoJSON_shapes (f :: fs)) as [shapes|e] eqn:Hs;
    cbn [JS.bind JS.try_catch]; [|by eauto].
  eexists. split; [done |]. right.
  exists resp, t, d, geojson, shapes. rewrite Hfs. by repeat split.
Qed.

Lemma loadFarmKML_result (fetch : string → JS.Exc JS.Response)
    (kmlUrl layerName : string) (p : Page) :
  ∃ p', loadFarmKML fetch kmlUrl layerName p = JS.Return p'
        ∧ (p' = p ∨ ∃ shapes, p' = add_farm_layer layerName shapes p).
Proof.
  unfold loadFarmKML.
  destruct (fetch kmlUrl) as [resp|e]; cbn [JS.bind JS.try_catch];
    [|by eauto].
  destruct (JS.ok resp); cbn [negb JS.bind JS.try_catch]; [|by eauto].
  destruct (JS.text resp) as [t|e]; cbn [JS.bind JS.try_catch]; [|by eauto].
  destruct (parseFromString t) as [d|e]; cbn [JS.bind JS.try_catch];
    [|by eauto].
  destruct (parsererrors d) as [|x xs]; cbn [JS.bind JS.try_catch];
    [|by eauto].
  destruct (kml d) as [geojson|e]; cbn [JS.bind JS.try_catch]; [|by eauto].
  destruct (features geojson) as [|f fs]; [by eauto |].
  destruct (geoJSON_shapes (f :: fs)) as [shapes|e];
    cbn [JS.bind JS.try_catch]; by eauto.
Qed.

Lemma add_farm_layer_frame (layerName : string) (shapes : list Shape)
    (p : Page) :
  objects (component (add_farm_layer layerName shapes p))
  = objects (component p)
  ∧ fireDataLayers (component (add_farm_layer layerName shapes p))
    = fireDataLayers (component p)
  ∧ lastId (component (add_farm_layer layerName shapes p))
    = S (lastId (component p)).
Proof.
  unfold add_farm_layer. simpl. by destruct (mapRef (component p)).
Qed.

Lemma add_farm_layer_mounted (layerName : string) (shapes : list Shape)
    (p : Page) (m : gset nat) :
  page_well_formed p → mapRef (component p) = Some m →
  mapRef (component (add_farm_layer layerName shapes p))
  = Some ({[S (lastId (component p))]} ∪ m)
  ∧ layersControlRef (component (add_farm_layer layerName shapes p))
    = control_addOverlay (S (lastId (component p))) layerName
        <$> layersControlRef (component p)
  ∧ farmLayerRef (add_farm_layer layerName shapes p)
    = Some (S (lastId (component p)))
  ∧ farm_objects (add_farm_layer layerName shapes p)
      !! S (lastId (component p)) = Some shapes.
Proof.
  intros (Hwf & Hmwf) Hm. unfold add_farm_layer. simpl. rewrite Hm.
  simpl. split; [|split; [done | split]].
  - f_equal. unfold addLayer.
    rewrite bool_decide_eq_false_2.
    + destruct (objects (component p) !! S (lastId (component p)))
        as [l|] eqn:Hl; [|done].
      assert (S (lastId (component p)) ≤ lastId (component p)) by
        (apply Hwf; by eexists). lia.
    + intros Hin. apply (Hmwf m) in Hin; [lia | done].
  - done.
  - by rewrite lookup_insert_eq.
Qed.

(** X14.  On a page whose map exists, a farm file that loads adds without
    taking away: the control keeps its entries in place and gets one more
    at the end, an overlay under the given name for the new layer; the
    layers on the map stay on it and the new layer joins them; the layer is
    remembered in [farmLayerRef].  The hotspot entries (for any other name
    than theirs), the state cell and the layers made before are untouched,
    whether the file loads or not. *)
Theorem farm_load_adds_one_overlay (fetch : string → JS.Exc JS.Response)
    (kmlUrl layerName : string) (p : Page) (m : gset nat)
    (es : list ControlEntry) :
  page_well_formed p →
  mapRef (component p) = Some m → layersControlRef (component p) = Some es →
  layerName ≠ hotspot_overlay_name →
  ∃ p', loadFarmKML fetch kmlUrl layerName p = JS.Return p'
        ∧ hotspot_entries (component p') = hotspot_entries (component p)
        ∧ fireDataLayers (component p') = fireDataLayers (component p)
        ∧ objects (component p') = objects (component p)
        ∧ (p' = p
           ∨ (entries (component p')
              = es ++ [{| layer := S (lastId (component p));
                          name := layerName; overlay := true |}]
              ∧ mapRef (component p')
                = Some ({[S (lastId (component p))]} ∪ m)
              ∧ farmLayerRef p' = Some (S (lastId (component p)))
              ∧ is_Some (farm_objects p' !! S (lastId (component p))))).
Proof.
  intros Hpwf Hm Hes Hname.
  destruct (loadFarmKML_result fetch kmlUrl layerName p)
    as (p' & Hp' & [->|(shapes & ->)]).
  - exists p. repeat split; try done. by left.
  - eexists. split; [done |].
    destruct (add_farm_layer_mounted layerName shapes p m Hpwf Hm)
      as (Hm' & Hc' & Hr' & Ho').
    destruct (add_farm_layer_frame layerName shapes p) as (Hobj & Hfdl & _).
    rewrite Hes in Hc'. simpl in Hc'.
    split; [|split; [done | split; [done |]]].
    + unfold hotspot_entries. rewrite Hc', Hes.
      unfold control_addOverlay. rewrite List.filter_app. simpl.
      apply String.eqb_neq in Hname. rewrite Hname. by rewrite app_nil_r.
    + right. unfold entries. rewrite Hc', Ho'.
      repeat split; done.
Qed.

Lemma add_farm_layer_fitted (layerName : string) (shapes : list Shape)
    (q : Page) :
  (is_Some (farmLayerRef q) →
     fitted (add_farm_layer layerName shapes q) = fitted q
     ∧ is_Some (farmLayerRef (add_farm_layer layerName shapes q)))
  ∧ (fitted_once q → fitted_once (add_farm_layer layerName shapes q)).
Proof.
  unfold add_farm_layer, fitted_once. simpl.
  destruct (mapRef (component q)); simpl; [|done].
  split.
  - intros [r ->]. split; [done | by eexists].
  - intros [Hlen Hnone]. split; [|done].
    destruct (farmLayerRef q); [done |].
    rewrite (Hnone eq_refl). destruct (bounds_valid shapes); simpl; lia.
Qed.

Lemma load_step_fitted (l : (string → JS.Exc JS.Response) * (string * string))
    (q : Page) :
  let q' := match loadFarmKML l.1 l.2.1 l.2.2 q with
            | JS.Return q' => q'
            | JS.Throw _ => q
            end in
  (is_Some (farmLayerRef q) →
     fitted q' = fitted q ∧ is_Some (farmLayerRef q'))
  ∧ (fitted_once q → fitted_once q').
Proof.
  destruct (loadFarmKML_result l.1 l.2.1 l.2.2 q)
    as (q' & -> & [->|(shapes & ->)]); simpl; [done |].
  apply add_farm_layer_fitted.
Qed.

Lemma load_all_fitted
    (loads : list ((string → JS.Exc JS.Response) * (string * string)))
    (q : Page) :
  (is_Some (farmLayerRef q) →
     fitted (load_all loads q) = fitted q
     ∧ is_Some (farmLayerRef (load_all loads q)))
  ∧ (fitted_once q → fitted_once (load_all loads q)).
Proof.
  unfold load_all. revert q. induction loads as [|l loads IH]; intros q;
    simpl; [done |].
  destruct (load_step_fitted l q) as [Hs Ho].
  destruct (IH (match loadFarmKML l.1 l.2.1 l.2.2 q with
                | JS.Return q' => q'
                | JS.Throw _ => q
                end)) as [IHs IHo].
  split.
  - intros Hq. destruct (Hs Hq) as [Hf Hr].
    destruct (IHs Hr) as [Hf' Hr']. split; [congruence | done].
  - intros Hq. apply IHo, Ho, Hq.
Qed.

(** X15.  The map is fitted to the farm at most once.  From a page that
    was fitted at most once, and not before a farm layer was remembered,
    any sequence of farm files that finish loading leaves such a page; and
    once [farmLayerRef] holds a layer, no file that loads later moves the
    map, whatever its bounds: only the first farm layer put on the map can
    fit it, and when its bounds are not valid the map is never fitted. *)
Theorem fit_at_most_once
    (before later : list ((string → JS.Exc JS.Response) * (string * string)))
    (p : Page) :
  fitted_once p →
  fitted_once (load_all before p)
  ∧ (is_Some (farmLayerRef (load_all before p)) →
     fitted (load_all (before ++ later) p) = fitted (load_all before p)).
Proof.
  intros Hp. split; [by apply load_all_fitted |].
  intros Hr. unfold load_all at 1. rewrite foldl_app.
  fold (load_all before p).
  by apply (load_all_fitted later (load_all before p)).
Qed.

End BoundaryLayer.

(** ** The boundary layer under the refresh *)
Section Survival.
Context `{LeafletGeometry} `{KmlLibraries}.
Variable network : N → string → JS.Exc JS.Response.
Import GeoJSON Leaflet Fire View Spec Props.

(** A swap that removes hotspot layers keeps every other overlay. *)
Lemma swap_keeps_other (old : list nat)
    (results : list (option (list Marker))) (c : Component)
    (e : ControlEntry) :
  well_formed c → map_well_formed c → Forall (is_GeoJSON c) old →
  other_overlay c e → other_overlay (swap old results c) e.
Proof.
  intros Hwf Hmwf Hgeo (He & Hon & Hng).
  pose proof (well_formed_le _ _ Hwf Hgeo) as Hle.
  assert (layer e ∉ old) as Hnot.
  { intros Hin. apply Hng. by apply (proj1 (Forall_forall _ _) Hgeo). }
  unfold layer_on_map in Hon.
  destruct (mapRef c) as [m|] eqn:Hm; [|done].
  apply bool_decide_eq_true in Hon.
  assert (layer e ≤ lastId c) as Hbound by by apply (Hmwf m).
  unfold entries in He.
  destruct (layersControlRef c) as [es|] eqn:Hes; [|by apply elem_of_nil in He].
  destruct (swap_fields old results c)
    as (ids & c1 & E & Hl & _ & _ & _ & Hc).
  split; [|split].
  - unfold entries. rewrite Hc, Hes. simpl. unfold control_addOverlay.
    apply elem_of_app. left. by apply removed_from_control_keeps.
  - rewrite (swap_old_layer _ _ _ m) by done.
    apply bool_decide_eq_true. rewrite removed_from_map_GeoJSON by done.
    apply elem_of_difference. split; [done |].
    by intros ?%elem_of_list_to_set.
  - intros [ms Hms]. apply Hng. exists ms.
    by rewrite <- (swap_objects_old old results).
Qed.

Lemma swap_keeps_GeoJSON (old : list nat)
    (results : list (option (list Marker))) (c : Component) (i : nat) :
  well_formed c → is_GeoJSON c i → is_GeoJSON (swap old results c) i.
Proof.
  intros Hwf [ms Hms]. exists ms. rewrite swap_objects_old; [done |].
  apply Hwf. by eexists.
Qed.

(** What a cycle of the interval keeps: the stamps stay in order, the
    layers the closure lists stay hotspot layers, and an overlay that is
    not a hotspot layer stays where it is. *)
Lemma tick_keeps_other (v : View) (e : ControlEntry) :
  well_formed (component v) ∧ map_well_formed (component v)
  ∧ other_overlay (component v) e
  ∧ (∀ i, intervalId v = Some i →
          Forall (is_GeoJSON (component v)) (captured i)) →
  well_formed (component (tick network v))
  ∧ map_well_formed (component (tick network v))
  ∧ other_overlay (component (tick network v)) e
  ∧ (∀ i, intervalId (tick network v) = Some i →
          Forall (is_GeoJSON (component (tick network v))) (captured i)).
Proof.
  intros (Hwf & Hmwf & He & Hcap). unfold tick.
  destruct (intervalId v) as [i|] eqn:Hi; [|by rewrite Hi].
  specialize (Hcap i eq_refl).
  change (component (set_interval ?j ?w)) with (component w).
  change (intervalId (set_interval ?j ?w)) with j.
  destruct (invoke_component network (captured i) (set_clock (due i) v))
    as [->|(_ & rs & ->)];
    change (component (set_clock (due i) v)) with (component v).
  - split; [done |]. split; [done |]. split; [done |]. by intros ? [= <-].
  - split; [by apply swap_well_formed |].
    split; [apply swap_map_well_formed; [done | by eapply well_formed_le] |].
    split; [by apply swap_keeps_other |].
    intros ? [= <-]. simpl.
    eapply Forall_impl; [exact Hcap |]. intros j Hj.
    by apply swap_keeps_GeoJSON.
Qed.

Lemma step_keeps_other (v : View) (e : ControlEntry) (ev : Event) :
  well_formed (component v) ∧ map_well_formed (component v)
  ∧ other_overlay (component v) e
  ∧ (∀ i, intervalId v = Some i →
          Forall (is_GeoJSON (component v)) (captured i)) →
  well_formed (component (step network v ev))
  ∧ map_well_formed (component (step network v ev))
  ∧ other_overlay (component (step network v ev)) e
  ∧ (∀ i, intervalId (step network v ev) = Some i →
          Forall (is_GeoJSON (component (step network v ev))) (captured i)).
Proof.
  intros Hv. destruct ev as [|dt|]; simpl.
  - rewrite effect_mounted; [done |]. right.
    destruct Hv as (_ & _ & (_ & Hon & _) & _). unfold layer_on_map in Hon.
    destruct (mapRef (component v)); [by eexists | done].
  - unfold advance.
    change (component (set_clock ?t ?w)) with (component w).
    change (intervalId (set_clock ?t ?w)) with (intervalId w).
    by apply (N.iter_invariant _ _ _
                (λ w, well_formed (component w)
                      ∧ map_well_formed (component w)
                      ∧ other_overlay (component w) e
                      ∧ (∀ i, intervalId w = Some i →
                              Forall (is_GeoJSON (component w))
                                (captured i))));
      [intros w; apply tick_keeps_other |].
  - destruct Hv as (Hwf & Hmwf & He & _).
    split; [done |]. split; [done |]. split; [done |]. by intros ? [=].
Qed.

(** The farm layer just put on the map is an overlay that is not a hotspot
    layer. *)
Lemma add_farm_layer_other (layerName : string)
    (shapes : list Boundary.Shape) (p : Boundary.Page) :
  page_well_formed p →
  is_Some (mapRef (Boundary.component p)) →
  is_Some (layersControlRef (Boundary.component p)) →
  well_formed (Boundary.component (Boundary.add_farm_layer layerName shapes p))
  ∧ map_well_formed
      (Boundary.component (Boundary.add_farm_layer layerName shapes p))
  ∧ other_overlay
      (Boundary.component (Boundary.add_farm_layer layerName shapes p))
      {| layer := S (lastId (Boundary.component p)); name := layerName;
         overlay := true |}.
Proof.
  intros [Hwf Hmwf] [m Hm] [es Hes].
  destruct (add_farm_layer_mounted layerName shapes p m (conj Hwf Hmwf) Hm)
    as (Hm' & Hc' & _ & _).
  destruct (add_farm_layer_frame layerName shapes p) as (Hobj & Hfdl & Hlast).
  set (q := Boundary.add_farm_layer layerName shapes p) in *.
  split; [|split; [|split; [|split]]].
  - intros i Hi. rewrite Hobj in Hi. apply Hwf in Hi. lia.
  - intros m' i Hm'' Hi. rewrite Hm' in Hm''. injection Hm'' as <-.
    rewrite Hlast. apply elem_of_union in Hi as [->%elem_of_singleton|Hi];
      [lia |]. apply (Hmwf m) in Hi; [lia | done].
  - unfold entries. rewrite Hc', Hes. simpl. unfold control_addOverlay.
    apply elem_of_app. right. by left.
  - unfold layer_on_map. rewrite Hm'. apply bool_decide_eq_true.
    simpl. set_solver.
  - simpl. intros [ms Hms]. rewrite Hobj in Hms.
    assert (S (lastId (Boundary.component p)) ≤ lastId (Boundary.component p))
      by (apply Hwf; by eexists). lia.
Qed.

(** X16.  No refresh removes the farm boundary.  Take the view at any
    moment after a farm file has put its layer on the map, with or without
    an interval set.  Whatever happens to the view from then on (time
    passing and cycles running, the effect running again, the cleanup), the
    farm overlay stays listed in the control under its name and its layer
    stays on the map.  This holds for the closure the interval runs, which
    saw [fireDataLayers] empty, and for any closure that lists hotspot
    layers. *)
Theorem farm_overlay_survives_refresh (layerName : string)
    (shapes : list Boundary.Shape) (p : Boundary.Page) (v : View)
    (es : list Event) :
  page_well_formed p →
  is_Some (mapRef (Boundary.component p)) →
  is_Some (layersControlRef (Boundary.component p)) →
  component v
  = Boundary.component (Boundary.add_farm_layer layerName shapes p) →
  (∀ i, intervalId v = Some i →
        Forall (is_GeoJSON (component v)) (captured i)) →
  {| layer := S (lastId (Boundary.component p)); name := layerName;
     overlay := true |}
    ∈ entries (component (foldl (step network) v es))
  ∧ layer_on_map (component (foldl (step network) v es))
      (S (lastId (Boundary.component p))) = true.
Proof.
  intros Hp Hm Hc Hv Hcap.
  destruct (add_farm_layer_other layerName shapes p Hp Hm Hc)
    as (Hwf & Hmwf & He).
  rewrite <- Hv in Hwf, Hmwf, He.
  assert (well_formed (component (foldl (step network) v es))
          ∧ map_well_formed (component (foldl (step network) v es))
          ∧ other_overlay (component (foldl (step network) v es))
              {| layer := S (lastId (Boundary.component p));
                 name := layerName; overlay := true |}
          ∧ (∀ i, intervalId (foldl (step network) v es) = Some i →
                  Forall (is_GeoJSON (component (foldl (step network) v es)))
                    (captured i))) as (_ & _ & (Hin & Hon & _) & _).
  { clear Hv. revert v Hwf Hmwf He Hcap.
    induction es as [|ev es IH]; intros v Hwf Hmwf He Hcap; [done |].
    simpl.
    destruct (step_keeps_other v _ ev (conj Hwf (conj Hmwf (conj He Hcap))))
      as (Hwf' & Hmwf' & He' & Hcap').
    by apply IH. }
  done.
Qed.

End Survival.

Lemma page_well_formed_sample : Props.page_well_formed Sample.page.
Proof.
  split.
  - apply init_map_well_formed. by intros i [l Hl].
  - apply map_well_formed_check. by vm_compute.
Qed.

Lemma farm_load_adds_one_overlay_witness :
  ∃ p',
    @Boundary.loadFarmKML Sample.geometry Stub.libraries
      (Sample.upstream "hotspot") "/doc.kml"
      "Propriedades Infiniti e Industrias INPASA" Sample.page = JS.Return p'
    ∧ Fire.hotspot_entries (Boundary.component p') = []
    ∧ Boundary.farmLayerRef p' = Some 3
    ∧ Boundary.fitted p' = [3].
Proof.
  destruct (@farm_load_adds_one_overlay Sample.geometry Stub.libraries
              (Sample.upstream "hotspot") "/doc.kml"
              "Propriedades Infiniti e Industrias INPASA" Sample.page
              {[1]} (Props.entries (Boundary.component Sample.page)))
    as (p' & Hl & He & _).
  - apply page_well_formed_sample.
  - reflexivity.
  - reflexivity.
  - discriminate.
  - exists p'. split; [done |]. split; [done |].
    vm_compute in Hl. injection Hl as <-. by split.
Defined.

Lemma fit_at_most_once_witness :
  Boundary.fitted
    (@Boundary.load_all Sample.geometry Stub.libraries
       [ (Sample.upstream "line", ("/doc.kml", "A"));
         (Sample.upstream "hotspot", ("/outra_fazenda.kml", "B")) ]
       Sample.page)
  = [].
Proof.
  destruct (@fit_at_most_once Sample.geometry Stub.libraries
              [ (Sample.upstream "line", ("/doc.kml", "A")) ]
              [ (Sample.upstream "hotspot", ("/outra_fazenda.kml", "B")) ]
              Sample.page) as [_ Hkept].
  - split; [simpl; lia | done].
  - simpl app in Hkept. rewrite Hkept; [reflexivity | by eexists].
Defined.

Lemma farm_layer_shapes_witness :
  ∃ shapes,
    @Boundary.geoJSON_shapes Sample.geometry
      [Stub.hotspot; Stub.styled; Stub.line] = JS.Return shapes
    ∧ Forall2 (@Props.drawn_as Sample.geometry) [Stub.hotspot; Stub.line]
        shapes
    ∧ map Boundary.path shapes = [None; Some Farm.default_style].
Proof.
  eexists. split; [reflexivity |]. split; [|reflexivity].
  by apply (proj1 (@farm_layer_shapes Sample.geometry
                     [Stub.hotspot; Stub.styled; Stub.line])).
Defined.

Lemma farm_overlay_survives_refresh_witness :
  let network := λ _ : N, Stub.first_answers "hotspot" in
  let v :=
    {| View.component :=
         Boundary.component
           (@Boundary.add_farm_layer Sample.geometry
              "Propriedades Infiniti e Industrias INPASA" []
              Sample.page_after_first_cycle);
       View.container := true; View.now := 0%N;
       View.intervalId :=
         Some {| View.due := View.REFRESH_INTERVAL; View.captured := [] |};
       View.calls := [0%N] |} in
  Fire.layer_on_map
    (View.component
       (foldl (@View.step Stub.libraries network) v
          [View.Advance View.REFRESH_INTERVAL;
           View.Advance View.REFRESH_INTERVAL]))
    5 = true.
Proof.
  intros network v.
  refine (proj2 (@farm_overlay_survives_refresh Sample.geometry
                   Stub.libraries network
                   "Propriedades Infiniti e Industrias INPASA" []
                   Sample.page_after_first_cycle v
                   [View.Advance View.REFRESH_INTERVAL;
                    View.Advance View.REFRESH_INTERVAL] _ _ _ _ _)).
  - split.
    + apply after_first_cycle_well_formed.
    + apply map_well_formed_check. by vm_compute.
  - by eexists.
  - by eexists.
  - reflexivity.
  - intros i [= <-]. constructor.
Defined.

Lemma loadFarmKML_cases_witness :
  ∃ shapes,
    @Boundary.loadFarmKML Sample.geometry Stub.libraries
      (Sample.upstream "line") "/doc.kml"
      "Propriedades Infiniti e Industrias INPASA" Sample.page
    = JS.Return
        (Boundary.add_farm_layer
           "Propriedades Infiniti e Industrias INPASA" shapes Sample.page).
Proof.
  eexists.
  by eapply (proj2 (@loadFarmKML_cases Sample.geometry Stub.libraries
                      (Sample.upstream "line") "/doc.kml"
                      "Propriedades Infiniti e Industrias INPASA"
                      Sample.page)).
Defined.
